(** * The rule compiler and the seven matchers of vale's [core/check.go]

    A shallow embedding of [core/check.go]: the matchers ([existence],
    [occurrence], [repetition], [substitution], [consistency],
    [conditional], [script]), the builders that compile a rule definition
    into a registered check, and the loader [addCheck].

    Go strings are byte strings: they are [string] here, one [ascii] per
    byte, and every offset is a byte offset of type [Z] (Go's [int]; the
    regexp package reports [-1] for a group that did not take part in a
    match).  The counters of the source are [Z] as well; they are bounded
    by the number of matches or of map entries and never wrap.  A run-time
    panic of the Go program is the result [None].

    [init], [loadExternalStyle] and [loadCheck] walk the file system and
    hand each rule file to [addCheck]; they are embedded after the
    builders, over what the file system and the configuration answer. *)

From Stdlib Require Import ZArith String Ascii List Lia Bool.
From stdpp Require Import base option list gmap strings pretty.

Set Default Proof Using "Type".

(** ** Go's [strings] package, as far as [check.go] calls it *)

(** [s[a:b]] for offsets handed out by the regexp package, which always
    satisfy [0 <= a <= b <= len(s)]. *)
Definition slice (s : string) (a b : Z) : string :=
  substring (Z.to_nat a) (Z.to_nat (b - a)) s.

(** [strings.Repeat]. *)
Fixpoint Repeat (s : string) (count : nat) : string :=
  match count with
  | O => ""
  | S n => s +:+ Repeat s n
  end.

(** [strings.Join]. *)
Fixpoint Join (a : list string) (sep : string) : string :=
  match a with
  | [] => ""
  | [x] => x
  | x :: rest => x +:+ sep +:+ Join rest sep
  end.

(** The scan behind [strings.Replace (s, old, new, -1)] for a non-empty
    [old]: occurrences are found left to right and do not overlap; [skip]
    counts the bytes of the occurrence just replaced that are still to be
    passed over. *)
Fixpoint replace_scan (old new : string) (s : string) (skip : nat) : string :=
  match s with
  | EmptyString => ""
  | String c s' =>
      match skip with
      | S k => replace_scan old new s' k
      | O =>
          if String.prefix old s
          then new +:+ replace_scan old new s' (String.length old - 1)
          else String c (replace_scan old new s' 0)
      end
  end.

(** For an empty [old], Go inserts [new] before every UTF-8 sequence and at
    the end.  The insertion below is per byte; it agrees with Go whenever
    [new] is empty, which is the only way [cleanText] can reach this case
    (there [new] has the length of [old]). *)
Fixpoint insert_between (new : string) (s : string) : string :=
  match s with
  | EmptyString => new
  | String c s' => new +:+ String c (insert_between new s')
  end.

Definition Replace (s old new : string) : string :=
  match old with
  | EmptyString => insert_between new s
  | _ => replace_scan old new s 0
  end.

(** [strings.Count] of non-overlapping instances of a non-empty [sep]. *)
Fixpoint count_scan (sep : string) (s : string) (skip : nat) : nat :=
  match s with
  | EmptyString => 0
  | String c s' =>
      match skip with
      | S k => count_scan sep s' k
      | O =>
          if String.prefix sep s
          then S (count_scan sep s' (String.length sep - 1))
          else count_scan sep s' 0
      end
  end.

(** For an empty [sep] Go counts the runes plus one; [check.go] only counts
    the two non-empty literals "(" and "?:". *)
Definition Count (s sep : string) : nat :=
  match sep with
  | EmptyString => S (String.length s)
  | _ => count_scan sep s 0
  end.

(** [strings.Split] on a non-empty separator: [cur] holds the bytes of the
    piece being read. *)
Fixpoint split_scan (sep : string) (s : string) (skip : nat) (cur : string)
  : list string :=
  match s with
  | EmptyString => [cur]
  | String c s' =>
      match skip with
      | S k => split_scan sep s' k cur
      | O =>
          if String.prefix sep s
          then cur :: split_scan sep s' (String.length sep - 1) ""
          else split_scan sep s' 0 (cur +:+ String c "")
      end
  end.

Definition Split (s sep : string) : list string := split_scan sep s 0 "".

(** [strings.TrimRight] for a cutset of single-byte characters. *)
Fixpoint in_cutset (c : ascii) (cutset : string) : bool :=
  match cutset with
  | EmptyString => false
  | String d rest => Ascii.eqb c d || in_cutset c rest
  end.

Fixpoint trim_left_cutset (cutset : string) (s : string) : string :=
  match s with
  | EmptyString => ""
  | String c s' => if in_cutset c cutset then trim_left_cutset cutset s' else s
  end.

Definition TrimRight (s cutset : string) : string :=
  String.rev (trim_left_cutset cutset (String.rev s)).

(** [strings.TrimSpace] removes the leading and trailing runes that
    [unicode.IsSpace] accepts.  These are their UTF-8 encodings. *)
Definition bytes (l : list nat) : string :=
  string_of_list_ascii (map ascii_of_nat l).

Definition space_runes : list string :=
  map bytes
    ([[9]; [10]; [11]; [12]; [13]; [32]; [194; 133]; [194; 160];
      [225; 154; 128]; [226; 128; 168]; [226; 128; 169]; [226; 128; 175];
      [226; 129; 159]; [227; 128; 128]]
     ++ map (fun k => [226; 128; 128 + k]) (seq 0 11))%list.

Definition drop_bytes (n : nat) (s : string) : string :=
  substring n (String.length s - n) s.

Fixpoint trim_runes_left (runes : list string) (fuel : nat) (s : string) : string :=
  match fuel with
  | O => s
  | S fuel' =>
      match List.find (fun r => String.prefix r s) runes with
      | Some r => trim_runes_left runes fuel' (drop_bytes (String.length r) s)
      | None => s
      end
  end.

Definition TrimSpace (s : string) : string :=
  let front := trim_runes_left space_runes (String.length s) s in
  String.rev
    (trim_runes_left (map String.rev space_runes) (String.length front)
       (String.rev front)).

(** [fmt.Sprintf] for the verbs [check.go] writes in its own formats, [%s]
    and [%d], with the arguments already rendered ([%d] through [pretty]).
    A format that runs out of arguments prints Go's [%!v(MISSING)]. *)
Fixpoint Sprintf (format : string) (args : list string) : string :=
  match format with
  | EmptyString => ""
  | String "%" (String v rest) =>
      if Ascii.eqb v "s" || Ascii.eqb v "d" then
        match args with
        | a :: args' => a +:+ Sprintf rest args'
        | [] => "%!" +:+ String v "(MISSING)" +:+ Sprintf rest []
        end
      else if Ascii.eqb v "%" then String "%" (Sprintf rest args)
      else String "%" (String v (Sprintf rest args))
  | String c rest => String c (Sprintf rest args)
  end.

(** ** Go's [regexp] package

    A compiled regular expression is known to [check.go] only through what
    it finds.  [Match] is one match: the span of the whole match and, for
    every capturing group in order, its span if the group took part.  The
    package's index-returning functions lay a match out as the flat array
    [start, end, start1, end1, ...] with [-1] for an absent group; the
    string-returning functions slice the searched text at those offsets. *)

Record Match := { whole : Z * Z; groups : list (option (Z * Z)) }.

Record Regexp := {
  FindAll : string -> list Match;
  (** [r.SubexpNames()]: the first entry is the whole expression's, empty *)
  SubexpNames : list string
}.

Definition flat_group (g : option (Z * Z)) : list Z :=
  match g with
  | Some (lo, hi) => [lo; hi]
  | None => [-1; -1]%Z
  end.

Definition flat (m : Match) : list Z :=
  [fst (whole m); snd (whole m)] ++ concat (map flat_group (groups m)).

Definition FindAllStringSubmatchIndex (r : Regexp) (s : string) : list (list Z) :=
  map flat (FindAll r s).

Definition FindAllStringIndex (r : Regexp) (s : string) : list (list Z) :=
  map (fun m => [fst (whole m); snd (whole m)]) (FindAll r s).

Definition FindAllString (r : Regexp) (s : string) : list string :=
  map (fun m => slice s (fst (whole m)) (snd (whole m))) (FindAll r s).

Definition group_text (s : string) (g : option (Z * Z)) : string :=
  match g with
  | Some (lo, hi) => slice s lo hi
  | None => ""
  end.

Definition FindAllStringSubmatch (r : Regexp) (s : string) : list (list string) :=
  map (fun m => slice s (fst (whole m)) (snd (whole m))
                :: map (group_text s) (groups m)) (FindAll r s).

Definition MatchString (r : Regexp) (s : string) : bool :=
  match FindAll r s with
  | [] => false
  | _ => true
  end.

(** ** The data model *)

Module Alert.
Record t := {
  Check : string;
  Severity : string;
  Span : list Z;
  Link : string;
  Message : string;
  Description : string
}.
End Alert.
Abbreviation Alert := Alert.t.

(** The fields of [File] that [check.go] touches. *)
Record File := { NormedExt : string; Sequences : list string }.

(** What a matcher can change: the document's [File] (passed by pointer in
    the source) and the lines the process has printed. *)
Record Env := { file : File; stdout : list string }.

Definition with_Sequences (e : Env) (sq : list string) : Env :=
  {| file := {| NormedExt := NormedExt (file e); Sequences := sq |};
     stdout := stdout e |}.

Definition with_stdout (e : Env) (out : list string) : Env :=
  {| file := file e; stdout := out |}.

Record Selector := { Value : string }.

(** A definition defines a rule from an external file.  [Map] lists the
    entries of the Go map in the order in which the [range] loop of the
    builder visits them, an order Go leaves unspecified. *)
Record definition := {
  Description : string;
  Exceptions : list string;
  Exe : string;
  If : string;
  Ignorecase : bool;
  Level : string;
  Link : string;
  Map : list (string * string);
  Max : Z;
  Message : string;
  Name : string;
  Negate : bool;
  Nonword : bool;
  Raw : list string;
  Runtime : string;
  Scope : string;
  Then : string;
  Tokens : list string;
  Type_ : string
}.

Definition ruleFn : Type := string -> Env -> option (list Alert * Env).

(** A check implements a single rule. *)
Record check := {
  extends : string;
  level : Z;
  rule : ruleFn;
  scope : Selector
}.

(** [AllChecks] and the process's output while rules are loaded. *)
Record LoadState := { AllChecks : gmap string check; printed : list string }.

(** ** Collaborators outside [check.go]

    The regexp compiler, the YAML and JSON decoders, the child process, the
    file system and the tables and helpers of package [util] are taken as
    given.  An [error] is [None] for Go's [nil]. *)
Class Externals := {
  (** [regexp.Compile] *)
  Compile : string -> Regexp + string;
  (** [util.MatchIgnoreByByExtension] *)
  MatchIgnoreByByExtension : gmap string string;
  (** [util.FormatMessage] *)
  FormatMessage : string -> list string -> string;
  (** [util.LevelToInt] and [util.AlertLevels] *)
  LevelToInt : gmap string Z;
  AlertLevels : list string;
  (** [util.Config.StylesPath], [util.FileExists], [filepath.Join] *)
  StylesPath : string;
  FileExists : string -> bool;
  filepath_Join : list string -> string;
  (** [exec.Command(runtime, exe, txt).Output()]: standard output, error *)
  Output : string -> string -> string -> string * option string;
  (** [json.Unmarshal(out, &alerts)]: what [alerts] holds afterwards, error *)
  json_Unmarshal : string -> list Alert -> list Alert * option string;
  (** [yaml.Unmarshal(file, &chkDef)]: what [chkDef] holds afterwards, error *)
  yaml_Unmarshal : string -> definition -> definition * option string;
  (** [rule.Asset] *)
  Asset : string -> string * option string
}.

(** Modelled from the spec: [util.CheckError] is not in [check.go].  The
    spec has every load-time and script failure "reported" or "logged" and
    "non-fatal"; [check.go] registers a rule exactly when the call returns
    true.  So a nil error prints nothing and yields true, any other error
    prints one line and yields false. *)
Definition CheckError (err : option string) (context : string)
    (out : list string) : bool * list string :=
  match err with
  | None => (true, out)
  | Some msg => (false, out ++ [context +:+ ": " +:+ msg])
  end.

(** Modelled from the spec: [util.StringInSlice] and
    [util.AllStringsInSlice] are not in [check.go]; "already present in the
    sequence" and "both names appear anywhere in the sequence". *)
Definition StringInSlice (a : string) (slice : list string) : bool :=
  existsb (String.eqb a) slice.

Definition AllStringsInSlice (strings slice : list string) : bool :=
  forallb (fun s => StringInSlice s slice) strings.

(** ** Loops *)

(** [for idx, x := range l { body }] over a state, stopping at a panic. *)
Fixpoint for_range {A St : Type} (body : nat -> A -> St -> option St)
    (idx : nat) (l : list A) (s : St) : option St :=
  match l with
  | [] => Some s
  | x :: l' =>
      match body idx x s with
      | Some s' => for_range body (S idx) l' s'
      | None => None
      end
  end.

Definition for_each {A St : Type} (body : A -> St -> option St)
    (l : list A) (s : St) : option St :=
  for_range (fun _ => body) 0 l s.

(** ** The matchers *)

Section Checks.
Context `{!Externals}.

Definition ignoreCase : string := "(?i)".
Definition wordTemplate : string := "\b(?:%s)\b".
Definition nonwordTemplate : string := "(?:%s)".

(** [regexp.MustCompile] panics where [regexp.Compile] returns an error. *)
Definition MustCompile (s : string) : option Regexp :=
  match Compile s with
  | inl re => Some re
  | inr _ => None
  end.

Definition urlPattern : string := "((?:https?|ftp)://[^\s/$.?#].[^\s]*)".

Definition cleanText (ext : string) (txt : string) : option string :=
  let regex := urlPattern in
  let regex :=
    match MatchIgnoreByByExtension !! ext with
    | Some s => regex +:+ "|" +:+ s
    | None => regex
    end in
  inline ← MustCompile regex;
  Some (fold_left
          (fun txt s => Replace txt s (Repeat "*" (String.length s)))
          (FindAllString inline txt) txt).

Definition formatMessages (msg desc : string) (subs : list string)
  : string * string :=
  (FormatMessage msg subs, FormatMessage desc subs).

Definition makeAlert (chk : definition) (loc : list Z) (txt : string)
  : option Alert :=
  lo ← loc !! 0%nat;
  hi ← loc !! 1%nat;
  let md := formatMessages (Message chk) (Description chk) [slice txt lo hi] in
  Some {| Alert.Check := Name chk; Alert.Severity := Level chk;
          Alert.Span := loc; Alert.Link := Link chk;
          Alert.Message := fst md; Alert.Description := snd md |}.

Definition conditional (txt : string) (chk : definition) (e : Env)
    (r : list Regexp) : option (list Alert * Env) :=
  txt ← cleanText (NormedExt (file e)) txt;
  r0 ← r !! 0%nat;
  let definitions := FindAllStringSubmatch r0 txt in
  let sequences :=
    fold_left
      (fun sq def =>
         match def with
         | _ :: d1 :: _ => sq ++ [d1]
         | _ => sq
         end)
      definitions (Sequences (file e)) in
  r1 ← r !! 1%nat;
  let locs := FindAllStringIndex r1 txt in
  alerts ← for_each
    (fun loc alerts =>
       lo ← loc !! 0%nat;
       hi ← loc !! 1%nat;
       let s := slice txt lo hi in
       if negb (StringInSlice s sequences)
          && negb (StringInSlice s (Exceptions chk))
       then a ← makeAlert chk loc txt; Some (alerts ++ [a])
       else Some alerts)
    locs [];
  Some (alerts, with_Sequences e sequences).

Definition existence (txt : string) (chk : definition) (e : Env)
    (r : Regexp) : option (list Alert * Env) :=
  masked ← cleanText (NormedExt (file e)) txt;
  let locs := FindAllStringIndex r masked in
  alerts ← for_each
    (fun loc alerts => a ← makeAlert chk loc txt; Some (alerts ++ [a]))
    locs [];
  Some (alerts, e).

Definition occurrence (txt : string) (chk : definition) (e : Env)
    (r : Regexp) (lim : Z) : option (list Alert * Env) :=
  masked ← cleanText (NormedExt (file e)) txt;
  let locs := FindAllStringIndex r masked in
  let occurrences := Z.of_nat (length locs) in
  if (lim <? occurrences)%Z then
    first ← locs !! 0%nat;
    lo ← first !! 0%nat;
    last ← locs !! Z.to_nat (occurrences - 1);
    hi ← last !! 1%nat;
    Some ([{| Alert.Check := Name chk; Alert.Severity := Level chk;
              Alert.Span := [lo; hi]; Alert.Link := Link chk;
              Alert.Message := Message chk;
              Alert.Description := Description chk |}], e)
  else Some ([], e).

(** The variables [repetition] carries from one match to the next. *)
Record rep_vars := {
  prev : string;
  ploc : list Z;
  count : Z;
  rep_alerts : list Alert
}.

Definition repetition_step (txt : string) (chk : definition)
    (loc : list Z) (v : rep_vars) : option rep_vars :=
  lo ← loc !! 0%nat;
  hi ← loc !! 1%nat;
  let curr := TrimSpace (slice txt lo hi) in
  let hit := String.eqb curr (prev v) && negb (String.eqb curr "") in
  let count := if hit then (count v + 1)%Z else count v in
  if hit && (Max chk <? count)%Z then
    p0 ← ploc v !! 0%nat;
    let floc := [p0; hi] in
    let md := formatMessages (Message chk) (Description chk) [curr] in
    let a := {| Alert.Check := Name chk; Alert.Severity := Level chk;
                Alert.Span := floc; Alert.Link := Link chk;
                Alert.Message := fst md; Alert.Description := snd md |} in
    Some {| prev := curr; ploc := loc; count := 0;
            rep_alerts := rep_alerts v ++ [a] |}
  else
    Some {| prev := curr; ploc := loc; count := count;
            rep_alerts := rep_alerts v |}.

Definition repetition (txt : string) (chk : definition) (e : Env)
    (r : Regexp) : option (list Alert * Env) :=
  v ← for_each (repetition_step txt chk) (FindAllStringIndex r txt)
        {| prev := ""; ploc := []; count := 0; rep_alerts := [] |};
  Some (rep_alerts v, e).

(** The test [mat != -1 && idx > 0 && idx%2 == 0] of the two loops over a
    flat match array. *)
Definition group_start (idx : nat) (mat : Z) : bool :=
  negb (mat =? -1)%Z && (0 <? idx)%nat && (idx mod 2 =? 0)%nat.

Definition substitution (txt : string) (chk : definition) (e : Env)
    (r : Regexp) (repl : list string) : option (list Alert * Env) :=
  if negb (MatchString r txt) then Some ([], e) else
  txt ← cleanText (NormedExt (file e)) txt;
  alerts ← for_each
    (fun submat =>
       for_range
         (fun idx mat alerts =>
            if group_start idx mat then
              hi ← submat !! (idx + 1)%nat;
              let loc := [mat; hi] in
              rp ← repl !! (idx / 2 - 1)%nat;
              let md := formatMessages (Message chk) (Description chk)
                          [rp; slice txt mat hi] in
              Some (alerts ++
                    [{| Alert.Check := Name chk; Alert.Severity := Level chk;
                        Alert.Span := loc; Alert.Link := Link chk;
                        Alert.Message := fst md;
                        Alert.Description := snd md |}])
            else Some alerts)
         0 submat)
    (FindAllStringSubmatchIndex r txt) [];
  Some (alerts, e).

Definition consistency (txt : string) (chk : definition) (e : Env)
    (r : Regexp) (opts : list string) : option (list Alert * Env) :=
  txt ← cleanText (NormedExt (file e)) txt;
  let matches := FindAllStringSubmatchIndex r txt in
  ls ← for_each
    (fun submat =>
       for_range
         (fun idx mat (ls : list Z * list string) =>
            if group_start idx mat then
              hi ← submat !! (idx + 1)%nat;
              name ← SubexpNames r !! (idx / 2)%nat;
              Some ([mat; hi], snd ls ++ [name])
            else Some ls)
         0 submat)
    matches ([], Sequences (file e));
  let e' := with_Sequences e (snd ls) in
  if negb (bool_decide (matches = [])) && AllStringsInSlice opts (snd ls)
  then a ← makeAlert chk (fst ls) txt; Some ([a], e')
  else Some ([], e').

Definition script (txt : string) (chkDef : definition) (exe : string)
    (e : Env) : option (list Alert * Env) :=
  let alerts := [] in
  let '(out, err) := Output (Runtime chkDef) exe txt in
  let '(ok, printed1) := CheckError err exe (stdout e) in
  if ok then
    let '(alerts, merr) := json_Unmarshal out alerts in
    let '(_, printed2) := CheckError merr exe printed1 in
    Some (alerts, with_stdout e printed2)
  else Some (alerts, with_stdout e printed1).

(** ** The builders and the loader *)

Definition set_Type (d : definition) (v : string) : definition :=
  {| Description := Description d; Exceptions := Exceptions d; Exe := Exe d;
     If := If d; Ignorecase := Ignorecase d; Level := Level d; Link := Link d;
     Map := Map d; Max := Max d; Message := Message d; Name := Name d;
     Negate := Negate d; Nonword := Nonword d; Raw := Raw d;
     Runtime := Runtime d; Scope := Scope d; Then := Then d;
     Tokens := Tokens d; Type_ := v |}.

Definition set_Level (d : definition) (v : string) : definition :=
  {| Description := Description d; Exceptions := Exceptions d; Exe := Exe d;
     If := If d; Ignorecase := Ignorecase d; Level := v; Link := Link d;
     Map := Map d; Max := Max d; Message := Message d; Name := Name d;
     Negate := Negate d; Nonword := Nonword d; Raw := Raw d;
     Runtime := Runtime d; Scope := Scope d; Then := Then d;
     Tokens := Tokens d; Type_ := Type_ d |}.

Definition set_Scope (d : definition) (v : string) : definition :=
  {| Description := Description d; Exceptions := Exceptions d; Exe := Exe d;
     If := If d; Ignorecase := Ignorecase d; Level := Level d; Link := Link d;
     Map := Map d; Max := Max d; Message := Message d; Name := Name d;
     Negate := Negate d; Nonword := Nonword d; Raw := Raw d;
     Runtime := Runtime d; Scope := v; Then := Then d;
     Tokens := Tokens d; Type_ := Type_ d |}.

(** [definition{Name: chkName}] *)
Definition new_definition (chkName : string) : definition :=
  {| Description := ""; Exceptions := []; Exe := ""; If := "";
     Ignorecase := false; Level := ""; Link := ""; Map := []; Max := 0;
     Message := ""; Name := chkName; Negate := false; Nonword := false;
     Raw := []; Runtime := ""; Scope := ""; Then := ""; Tokens := [];
     Type_ := "" |}.

(** [util.CheckError] while rules are loaded. *)
Definition report (err : option string) (context : string) (st : LoadState)
  : bool * LoadState :=
  let r := CheckError err context (printed st) in
  (fst r, {| AllChecks := AllChecks st; printed := snd r |}).

Definition compile_error (r : Regexp + string) : option string :=
  match r with
  | inl _ => None
  | inr err => Some err
  end.

Definition updateAllChecks (chkDef : definition) (fn : ruleFn)
    (st : LoadState) : LoadState :=
  let chk := {| rule := fn; extends := Type_ chkDef;
                level := default 0%Z (LevelToInt !! Level chkDef);
                scope := {| Value := Scope chkDef |} |} in
  {| AllChecks := <[Name chkDef := chk]> (AllChecks st);
     printed := printed st |}.

Definition addScriptCheck (chkName : string) (chkDef : definition)
    (st : LoadState) : option LoadState :=
  style ← Split chkName "." !! 0%nat;
  let exe := filepath_Join [StylesPath; style; "scripts"; Exe chkDef] in
  if FileExists exe then
    let fn := fun text e => script text chkDef exe e in
    Some (updateAllChecks chkDef fn st)
  else Some st.

(** The flags and the template every pattern of a rule is wrapped in. *)
Definition template_of (chkDef : definition) : string :=
  (if Ignorecase chkDef then ignoreCase else "")
  +:+ (if negb (Nonword chkDef) then wordTemplate else nonwordTemplate).

(** The two group names of the pair compiled when the counter is [count]. *)
Definition subs_of (chkKey : string) (count : Z) : list string :=
  [Sprintf "%s%d" [chkKey; pretty count];
   Sprintf "%s%d" [chkKey; pretty (count + 1)%Z]].

Definition pair_pattern (regex : string) (subs : list string)
    (v1 v2 : string) : string :=
  let chkRE :=
    Sprintf "(?P<%s>%s)|(?P<%s>%s)"
      [default "" (subs !! 0%nat); v1; default "" (subs !! 1%nat); v2] in
  Sprintf regex [chkRE].

(** The [range chkDef.Map] loop of [addConsistencyCheck]; [chkDef] is the
    builder's own copy, whose [Type] the loop overwrites. *)
Fixpoint consistency_pairs (chkName chkKey regex : string)
    (kvs : list (string * string)) (chkDef : definition) (count : Z)
    (st : LoadState) : LoadState :=
  match kvs with
  | [] => st
  | (v1, v2) :: rest =>
      let count := (count + 2)%Z in
      let subs := subs_of chkKey count in
      let compiled := Compile (pair_pattern regex subs v1 v2) in
      let ok_st := report (compile_error compiled) chkName st in
      match fst ok_st, compiled with
      | true, inl re =>
          let chkDef := set_Type chkDef chkName in
          let fn := fun text e => consistency text chkDef e re subs in
          consistency_pairs chkName chkKey regex rest chkDef count
            (updateAllChecks chkDef fn (snd ok_st))
      | _, _ =>
          consistency_pairs chkName chkKey regex rest chkDef count (snd ok_st)
      end
  end.

Definition addConsistencyCheck (chkName : string) (chkDef : definition)
    (st : LoadState) : option LoadState :=
  let regex := template_of chkDef in
  chkKey ← Split chkName "." !! 1%nat;
  Some (consistency_pairs chkName chkKey regex (Map chkDef) chkDef 0 st).

(** The pattern [addExistenceCheck] assembles. *)
Definition existence_pattern (chkDef : definition) : string :=
  let regex := (if Ignorecase chkDef then ignoreCase else "")
               +:+ Join (Raw chkDef) "" in
  let regex :=
    if negb (Nonword chkDef) && (0 <? length (Tokens chkDef))%nat
    then regex +:+ wordTemplate else regex +:+ nonwordTemplate in
  Sprintf regex [Join (Tokens chkDef) "|"].

Definition addExistenceCheck (chkName : string) (chkDef : definition)
    (st : LoadState) : option LoadState :=
  let compiled := Compile (existence_pattern chkDef) in
  let ok_st := report (compile_error compiled) chkName st in
  match fst ok_st, compiled with
  | true, inl re =>
      let fn := fun text e => existence text chkDef e re in
      Some (updateAllChecks chkDef fn (snd ok_st))
  | _, _ => Some (snd ok_st)
  end.

(** The pattern [addRepetitionCheck] assembles. *)
Definition repetition_pattern (chkDef : definition) : string :=
  (if Ignorecase chkDef then ignoreCase else "")
  +:+ "(" +:+ Join (Tokens chkDef) "|" +:+ ")".

Definition addRepetitionCheck (chkName : string) (chkDef : definition)
    (st : LoadState) : option LoadState :=
  let compiled := Compile (repetition_pattern chkDef) in
  let ok_st := report (compile_error compiled) chkName st in
  match fst ok_st, compiled with
  | true, inl re =>
      let fn := fun text e => repetition text chkDef e re in
      Some (updateAllChecks chkDef fn (snd ok_st))
  | _, _ => Some (snd ok_st)
  end.

Definition addOccurrenceCheck (chkName : string) (chkDef : definition)
    (st : LoadState) : option LoadState :=
  token ← Tokens chkDef !! 0%nat;
  let compiled := Compile token in
  let ok_st := report (compile_error compiled) chkName st in
  match fst ok_st && (1 <=? Max chkDef)%Z, compiled with
  | true, inl re =>
      let fn := fun text e => occurrence text chkDef e re (Max chkDef) in
      Some (updateAllChecks chkDef fn (snd ok_st))
  | _, _ => Some (snd ok_st)
  end.

Definition addConditionalCheck (chkName : string) (chkDef : definition)
    (st : LoadState) : option LoadState :=
  let expression := [] in
  let compiled := Compile (Then chkDef) in
  let ok_st := report (compile_error compiled) chkName st in
  match fst ok_st, compiled with
  | true, inl re =>
      let expression := expression ++ [re] in
      let compiled := Compile (If chkDef) in
      let ok_st := report (compile_error compiled) chkName (snd ok_st) in
      match fst ok_st, compiled with
      | true, inl re =>
          let expression := expression ++ [re] in
          let fn := fun text e => conditional text chkDef e expression in
          Some (updateAllChecks chkDef fn (snd ok_st))
      | _, _ => Some (snd ok_st)
      end
  | _, _ => Some (snd ok_st)
  end.

(** The [range chkDef.Map] loop of [addSubstitutionCheck]. *)
Definition substitution_pairs (kvs : list (string * string))
  : string * list string :=
  fold_left
    (fun (acc : string * list string) (kv : string * string) =>
       if negb (Count (fst kv) "(" =? Count (fst kv) "?:")%nat then acc
       else (fst acc +:+ "(" +:+ fst kv +:+ ")|", snd acc ++ [snd kv]))
    kvs ("", []).

(** The pattern [addSubstitutionCheck] assembles. *)
Definition substitution_pattern (chkDef : definition) : string :=
  let regex := template_of chkDef in
  let tokens := fst (substitution_pairs (Map chkDef)) in
  Sprintf regex [TrimRight tokens "|"].

Definition addSubstitutionCheck (chkName : string) (chkDef : definition)
    (st : LoadState) : option LoadState :=
  let replacements := snd (substitution_pairs (Map chkDef)) in
  let compiled := Compile (substitution_pattern chkDef) in
  let ok_st := report (compile_error compiled) "addSubstitutionCheck" st in
  match fst ok_st, compiled with
  | true, inl re =>
      let fn := fun text e => substitution text chkDef e re replacements in
      Some (updateAllChecks chkDef fn (snd ok_st))
  | _, _ => Some (snd ok_st)
  end.

Definition builder : Type := string -> definition -> LoadState -> option LoadState.

Definition typeToFunc : list (string * builder) :=
  [("conditional", addConditionalCheck);
   ("consistency", addConsistencyCheck);
   ("existence", addExistenceCheck);
   ("occurrence", addOccurrenceCheck);
   ("repetition", addRepetitionCheck);
   ("script", addScriptCheck);
   ("substitution", addSubstitutionCheck)].

Fixpoint lookup_builder (key : string) (table : list (string * builder))
  : option builder :=
  match table with
  | [] => None
  | (k, f) :: rest => if String.eqb key k then Some f else lookup_builder key rest
  end.

Definition addCheck (file : string) (chkName : string) (st : LoadState)
  : option LoadState :=
  let chkDef := new_definition chkName in
  let parsed := yaml_Unmarshal file chkDef in
  let chkDef := fst parsed in
  let ok_st := report (snd parsed) chkName st in
  if negb (fst ok_st) then Some (snd ok_st) else
  let st := snd ok_st in
  let chkDef :=
    if negb (StringInSlice (Level chkDef) AlertLevels)
    then set_Level chkDef "suggestion" else chkDef in
  let chkDef :=
    if String.eqb (Scope chkDef) "" then set_Scope chkDef "text" else chkDef in
  match lookup_builder (Type_ chkDef) typeToFunc with
  | Some addCheckFunc => addCheckFunc chkName chkDef st
  | None => Some st
  end.

Definition defaultChecks : list string :=
  ["Abbreviations"; "Annotations"; "ComplexWords"; "Editorializing";
   "GenderBias"; "Hedging"; "Litotes"; "PassiveVoice"; "Redundancy";
   "Repetition"; "Uncomparables"; "Wordiness"].

(** The loop of [loadDefaultChecks] over a list of rule names. *)
Definition loadChecks (names : list string) (st : LoadState)
  : option LoadState :=
  for_each
    (fun chk st =>
       let b := Asset ("rule/" +:+ chk +:+ ".yml") in
       match snd b with
       | Some _ => Some st
       | None => addCheck (fst b) ("vale." +:+ chk) st
       end)
    names st.

Definition loadDefaultChecks (st : LoadState) : option LoadState :=
  loadChecks defaultChecks st.

End Checks.

(** ** Notions the statements are written in *)

(** The [loc] the index-returning functions hand out for a match. *)
Definition loc_of (m : Match) : list Z := [fst (whole m); snd (whole m)].






(** The groups of a match that the loops over its flat array act on, each
    with its number (from 1) and its span. *)
Fixpoint participants_from (k : nat) (gs : list (option (Z * Z)))
  : list (nat * (Z * Z)) :=
  match gs with
  | [] => []
  | g :: rest =>
      match g with
      | Some (lo, hi) => if (lo =? -1)%Z then [] else [(k, (lo, hi))]
      | None => []
      end ++ participants_from (S k) rest
  end.

Definition participants (m : Match) : list (nat * (Z * Z)) :=
  participants_from 1 (groups m).






Definition match_text (txt : string) (m : Match) : string :=
  slice txt (fst (whole m)) (snd (whole m)).

(** The first capture group's text of every match of a pattern that has a
    capture group (empty where the group took no part). *)
Definition first_groups (r : Regexp) (txt : string) : list string :=
  omap (fun m => match groups m with
                 | g :: _ => Some (group_text txt g)
                 | [] => None
                 end) (FindAll r txt).

(** A match of the flagged pattern of a conditional rule is reported unless
    its text is in the sequence or among the rule's exceptions. *)
Definition is_flagged (chk : definition) (sequences : list string)
    (txt : string) (m : Match) : bool :=
  negb (StringInSlice (match_text txt m) sequences)
  && negb (StringInSlice (match_text txt m) (Exceptions chk)).

(** The pairs of a substitution map that [addSubstitutionCheck] keeps, and
    the alternatives it writes for them: one capturing group each. *)
Definition kept_pairs (kvs : list (string * string)) : list (string * string) :=
  List.filter (fun kv => (Count (fst kv) "(" =? Count (fst kv) "?:")%nat) kvs.

Definition wrap_all (kvs : list (string * string)) : string :=
  fold_right (fun kv acc => "(" +:+ fst kv +:+ ")|" +:+ acc) "" kvs.

Definition occurrence_alert (chk : definition) (lo hi : Z) : Alert :=
  {| Alert.Check := Name chk; Alert.Severity := Level chk;
     Alert.Span := [lo; hi]; Alert.Link := Link chk;
     Alert.Message := Message chk; Alert.Description := Description chk |}.

(** The body of the loops over a flat match array [arr], with what is
    done for a group as [F], and the same step taken group by group. *)
Definition flat_body {St : Type} (F : nat -> Z -> Z -> St -> option St)
    (arr : list Z) (idx : nat) (mat : Z) (acc : St) : option St :=
  if group_start idx mat then hi ← arr !! (idx + 1)%nat; F idx mat hi acc
  else Some acc.

Definition group_body {St : Type} (F : nat -> Z -> Z -> St -> option St)
    (p : nat * (Z * Z)) (acc : St) : option St :=
  F (2 * fst p) (fst (snd p)) (snd (snd p)) acc.

(** What [consistency] does for a group that took part. *)
Definition consistency_group (names : list string) (idx : nat) (mat hi : Z)
    (ls : list Z * list string) : option (list Z * list string) :=
  name ← names !! (idx / 2)%nat;
  Some ([mat; hi], snd ls ++ [name]).

(** The [loc] after the loops of [consistency]: the span of the last group
    that took part. *)
Definition last_loc (loc0 : list Z) (ps : list (nat * (Z * Z))) : list Z :=
  match last ps with
  | Some p => [fst (snd p); snd (snd p)]
  | None => loc0
  end.

(** What every builder guarantees: it returns, it only adds to the output,
    and it leaves every other name of the registry alone. *)
Definition builds (d : definition) (st : LoadState)
    (result : option LoadState) (errs : list string) : Prop :=
  exists st',
    result = Some st'
    /\ printed st' = printed st ++ errs
    /\ (forall k, k <> Name d -> AllChecks st' !! k = AllChecks st !! k).

Definition dropped (st : LoadState) (result : option LoadState) : Prop :=
  exists st', result = Some st' /\ AllChecks st' = AllChecks st.

Section Worded.
Context `{!Externals}.

(** The alert [makeAlert] builds for a span, the message formatted with
    the bytes of [txt] between its offsets. *)
Definition alert_at (chk : definition) (txt : string) (span : Z * Z) : Alert :=
  {| Alert.Check := Name chk; Alert.Severity := Level chk;
     Alert.Span := [fst span; snd span]; Alert.Link := Link chk;
     Alert.Message :=
       FormatMessage (Message chk) [slice txt (fst span) (snd span)];
     Alert.Description :=
       FormatMessage (Description chk) [slice txt (fst span) (snd span)] |}.

(** The alert of [substitution] that recommends [replacement] for the
    bytes of [txt] between two offsets. *)
Definition recommend (chk : definition) (txt : string) (replacement : string)
    (span : Z * Z) : Alert :=
  {| Alert.Check := Name chk; Alert.Severity := Level chk;
     Alert.Span := [fst span; snd span]; Alert.Link := Link chk;
     Alert.Message :=
       FormatMessage (Message chk) [replacement; slice txt (fst span) (snd span)];
     Alert.Description :=
       FormatMessage (Description chk)
         [replacement; slice txt (fst span) (snd span)] |}.

(** The closures the seven builders bind. *)
Inductive compiled_rule : ruleFn -> Prop :=
| compiled_conditional chkDef reThen reIf :
    compiled_rule (fun text e => conditional text chkDef e [reThen; reIf])
| compiled_consistency chkDef re subs :
    compiled_rule (fun text e => consistency text chkDef e re subs)
| compiled_existence chkDef re :
    compiled_rule (fun text e => existence text chkDef e re)
| compiled_occurrence chkDef re :
    compiled_rule (fun text e => occurrence text chkDef e re (Max chkDef))
| compiled_repetition chkDef re :
    compiled_rule (fun text e => repetition text chkDef e re)
| compiled_script chkDef exe :
    compiled_rule (fun text e => script text chkDef exe e)
| compiled_substitution chkDef re repl :
    compiled_rule (fun text e => substitution text chkDef e re repl).




(** [conditional] as the specification words it: the first capture group of
    every match of the [if] pattern is collected, the matches of the [then]
    pattern are flagged. *)
Definition conditional_as_worded (txt : string) (chk : definition) (e : Env)
    (reIf reThen : Regexp) : option (list Alert * Env) :=
  conditional txt chk e [reIf; reThen].

(** Every check of the registry is one of those closures. *)
Definition all_compiled (st : LoadState) : Prop :=
  forall k c, AllChecks st !! k = Some c -> compiled_rule (rule c).

(** The line printed when the first pattern a builder compiles for [d] is
    rejected, for the kinds whose builder compiles one pattern (or, for a
    conditional rule, two). *)
Definition error_line (context : string) (r : Regexp + string) : option string :=
  match r with
  | inl _ => None
  | inr err => Some (context +:+ ": " +:+ err)
  end.

Definition rejected_line (chkName : string) (d : definition) : option string :=
  if String.eqb (Type_ d) "existence" then
    error_line chkName (Compile (existence_pattern d))
  else if String.eqb (Type_ d) "repetition" then
    error_line chkName (Compile (repetition_pattern d))
  else if String.eqb (Type_ d) "occurrence" then
    token ← Tokens d !! 0%nat; error_line chkName (Compile token)
  else if String.eqb (Type_ d) "substitution" then
    error_line "addSubstitutionCheck" (Compile (substitution_pattern d))
  else if String.eqb (Type_ d) "conditional" then
    match Compile (Then d) with
    | inr err => Some (chkName +:+ ": " +:+ err)
    | inl _ => error_line chkName (Compile (If d))
    end
  else None.

(** What [substitution] does for a group that took part. *)
Definition substitution_group (chk : definition) (txt : string)
    (repl : list string) (idx : nat) (mat hi : Z) (alerts : list Alert)
  : option (list Alert) :=
  rp ← repl !! (idx / 2 - 1)%nat;
  Some (alerts ++ [recommend chk txt rp (mat, hi)]).


(** The defaults [addCheck] fills in before it dispatches. *)
Definition normalised (chkDef : definition) : definition :=
  let chkDef :=
    if negb (StringInSlice (Level chkDef) AlertLevels)
    then set_Level chkDef "suggestion" else chkDef in
  if String.eqb (Scope chkDef) "" then set_Scope chkDef "text" else chkDef.

End Worded.

(** ** Loading from the styles directory

    [loadCheck], [loadExternalStyle] and [init], over the file system and
    the configuration of package [util]. *)

(** [strings.HasSuffix]. *)
Definition HasSuffix (s suffix : string) : bool :=
  String.prefix (String.rev suffix) (String.rev s).

(** [strings.Contains]. *)
Fixpoint Contains (s substr : string) : bool :=
  String.prefix substr s
  || match s with
     | EmptyString => false
     | String _ s' => Contains s' substr
     end.

(** What [filepath.Walk] hands to its callback for one entry: the path and
    either the entry's [os.FileInfo] (its [Name()] and [IsDir()]) or the
    error met on the way to it. *)
Record WalkEntry := {
  entry_path : string;
  entry_info : (string * bool) + string
}.

Class FileSystem := {
  (** [ioutil.ReadFile] *)
  ReadFile : string -> string * option string;
  (** [filepath.Base] and [filepath.Dir] *)
  filepath_Base : string -> string;
  filepath_Dir : string -> string;
  (** [filepath.Walk] with a callback that always returns nil: the entries
      visited, in order, and the error returned at the end *)
  Walk : string -> list WalkEntry * option string;
  (** [util.Config.GBaseStyles], [util.Config.SBaseStyles] (the values of
      the map, in the order its [range] loop visits them) and
      [util.Config.Checks] *)
  GBaseStyles : list string;
  SBaseStyles : list (list string);
  Checks : list string
}.

Section Styles.
Context `{!Externals} `{!FileSystem}.

(** The line [loadCheck] prints for a name that is registered already. *)
Definition duplicate_line (chkName : string) : string :=
  Sprintf "error (%s): duplicate check" [chkName] +:+ String "010" "".

Definition loadCheck (fName : string) (fp : string) (st : LoadState)
  : option LoadState :=
  if HasSuffix fName ".yml" then
    let read := ReadFile fp in
    let ok_st := report (snd read) fName st in
    if negb (fst ok_st) then Some (snd ok_st) else
    let st := snd ok_st in
    let style := filepath_Base (filepath_Dir fp) in
    part ← Split fName "." !! 0%nat;
    let chkName := style +:+ "." +:+ part in
    match AllChecks st !! chkName with
    | Some _ =>
        Some {| AllChecks := AllChecks st;
                printed := printed st ++ [duplicate_line chkName] |}
    | None => addCheck (fst read) chkName st
    end
  else Some st.

(** The callback [loadExternalStyle] gives to [filepath.Walk]. *)
Definition walk_entry (entry : WalkEntry) (st : LoadState)
  : option LoadState :=
  match entry_info entry with
  | inr _ => Some st
  | inl (name, is_dir) =>
      if is_dir then Some st else loadCheck name (entry_path entry) st
  end.

Definition loadExternalStyle (path : string) (st : LoadState)
  : option LoadState :=
  let walked := Walk path in
  st ← for_each walk_entry (fst walked) st;
  Some (snd (report (snd walked) path st)).

(** The state of [init] after its first two loops: the registry and the
    styles loaded so far. *)
Definition load_style (baseDir style : string)
    (acc : LoadState * list string) : option (LoadState * list string) :=
  st ← loadExternalStyle (filepath_Join [baseDir; style]) (fst acc);
  Some (st, snd acc ++ [style]).

(** The body of the loop of [init] over [util.Config.Checks]. *)
Definition load_configured_check (baseDir : string)
    (loadedStyles : list string) (chk : string) (st : LoadState)
  : option LoadState :=
  if negb (Contains chk ".") then Some st else
  let check := Split chk "." in
  style ← check !! 0%nat;
  if negb (StringInSlice style loadedStyles) then
    rule_name ← check !! 1%nat;
    let fName := rule_name +:+ ".yml" in
    let path := filepath_Join [baseDir; style; fName] in
    loadCheck fName path st
  else Some st.

Definition init (st : LoadState) : option LoadState :=
  let loadedStyles := [] in
  st ← loadDefaultChecks st;
  if String.eqb StylesPath "" then Some st else
  let loadedStyles := loadedStyles ++ ["vale"] in
  let baseDir := StylesPath in
  acc ← for_each
    (fun style acc =>
       if String.eqb style "vale" then Some acc
       else load_style baseDir style acc)
    GBaseStyles (st, loadedStyles);
  acc ← for_each
    (fun styles acc =>
       for_each
         (fun style acc =>
            if negb (StringInSlice style (snd acc))
            then load_style baseDir style acc else Some acc)
         styles acc)
    SBaseStyles acc;
  let loadedStyles := snd acc in
  for_each (load_configured_check baseDir loadedStyles) Checks (fst acc).

End Styles.

(** ** Notions for the properties of loading and masking *)

Section LoadingNotions.
Context `{!Externals}.

(** The pattern [cleanText] compiles for a format. *)
Definition mask_pattern (ext : string) : string :=
  match MatchIgnoreByByExtension !! ext with
  | Some s => urlPattern +:+ "|" +:+ s
  | None => urlPattern
  end.

(** What [regexp.Compile] answers for the pairs of a consistency rule, in
    the order and with the counter of the builder's loop. *)
Fixpoint pair_compiles (chkKey regex : string) (kvs : list (string * string))
    (count : Z) : list (Regexp + string) :=
  match kvs with
  | [] => []
  | (v1, v2) :: rest =>
      Compile (pair_pattern regex (subs_of chkKey (count + 2)%Z) v1 v2)
      :: pair_compiles chkKey regex rest (count + 2)%Z
  end.

(** A pattern inside the flags and the template of a rule. *)
Definition wrap_in_template (d : definition) (x : string) : string :=
  (if Ignorecase d then "(?i)" else "")
  +:+ (if Nonword d then "(?:" else "\b(?:")
  +:+ x +:+ (if Nonword d then ")" else ")\b").

(** The bytes of [s] hold no [%]. *)
Fixpoint no_percent (s : string) : bool :=
  match s with
  | EmptyString => true
  | String c s' => negb (Ascii.eqb c "%") && no_percent s'
  end.

(** A check as a builder registers it for the definition [d]. *)
Definition registered_for (d : definition) (c : check) : Prop :=
  Value (scope c) = Scope d
  /\ level c = default 0%Z (LevelToInt !! Level d)
  /\ compiled_rule (rule c).

(** The registry after the checks [cs] have been stored, one after the
    other, under [name]. *)
Definition store_all (name : string) (cs : list check)
    (m : gmap string check) : gmap string check :=
  fold_left (fun m c => <[name := c]> m) cs m.

(** The output of [st'] is the output of [st] with lines added. *)
Definition extends_output (st st' : LoadState) : Prop :=
  exists lines, printed st' = printed st ++ lines.

(** From [st] to [st'] the registry is untouched or takes one check built
    for [d], under the name of [d]. *)
Definition stores_at_most (d : definition) (st st' : LoadState) : Prop :=
  extends_output st st'
  /\ (AllChecks st' = AllChecks st
      \/ exists c, registered_for d c
            /\ AllChecks st' = <[Name d := c]> (AllChecks st)).

(** A check with a scope, a level of the levels table and one of the seven
    closures as its rule. *)
Definition well_formed (c : check) : Prop :=
  Value (scope c) <> ""
  /\ (exists l, In l ("suggestion" :: AlertLevels)
               /\ level c = default 0%Z (LevelToInt !! l))
  /\ compiled_rule (rule c).

Definition all_well_formed (st : LoadState) : Prop :=
  forall k c, AllChecks st !! k = Some c -> well_formed c.

(** What loading does to the state: no name leaves the registry, no line
    leaves the output, and well-formed registries stay so. *)
Definition grows (st st' : LoadState) : Prop :=
  (forall k, is_Some (AllChecks st !! k) -> is_Some (AllChecks st' !! k))
  /\ extends_output st st'
  /\ (all_well_formed st -> all_well_formed st').



End LoadingNotions.


(** ** Hand-written regexps and collaborators for the examples

    Each matcher below finds, on ASCII text, what Go's leftmost-first
    search finds for one shape of pattern. *)

Definition in_range (lo hi : nat) (c : ascii) : bool :=
  (lo <=? nat_of_ascii c)%nat && (nat_of_ascii c <=? hi)%nat.

(** [\w] *)
Definition is_word (c : ascii) : bool :=
  in_range 48 57 c || in_range 65 90 c || in_range 97 122 c || in_range 95 95 c.

(** [\s] of the regexp syntax: tab, newline, form feed, return, space *)
Definition is_re_space (c : ascii) : bool :=
  in_range 9 10 c || in_range 12 13 c || in_range 32 32 c.

(** [\b] between two neighbouring bytes, either of which may be missing *)
Definition boundary (before after : option ascii) : bool :=
  xorb (from_option is_word false before) (from_option is_word false after).

Definition first_byte (s : string) : option ascii :=
  match s with
  | String c _ => Some c
  | EmptyString => None
  end.

(** The first alternative, in order, that matches at the head of [s]. *)
Fixpoint find_alt (word : bool) (alts : list string) (before : option ascii)
    (s : string) (k : nat) : option (nat * string) :=
  match alts with
  | [] => None
  | v :: rest =>
      if negb (String.eqb v "") && String.prefix v s
         && (negb word
             || (boundary before (first_byte s)
                 && boundary (first_byte (String.rev v))
                      (first_byte (drop_bytes (String.length v) s))))
      then Some (k, v)
      else find_alt word rest before s (S k)
  end.

Definition group_vector (n k : nat) (span : Z * Z) : list (option (Z * Z)) :=
  map (fun i => if (i =? k)%nat then Some span else None) (seq 0 n).

Fixpoint alt_scan (word capture : bool) (alts : list string)
    (before : option ascii) (s : string) (pos : Z) (skip : nat) : list Match :=
  match s with
  | EmptyString => []
  | String c s' =>
      match skip with
      | S k => alt_scan word capture alts (Some c) s' (pos + 1)%Z k
      | O =>
          match find_alt word alts before s 0 with
          | Some (k, v) =>
              let span := (pos, (pos + Z.of_nat (String.length v))%Z) in
              {| whole := span;
                 groups := if capture
                           then group_vector (length alts) k span else [] |}
              :: alt_scan word capture alts (Some c) s' (pos + 1)%Z
                   (String.length v - 1)
          | None => alt_scan word capture alts (Some c) s' (pos + 1)%Z 0
          end
      end
  end.

(** A non-empty alternation of literals [v1|v2|...]: between [\b]s when
    [word] is set, each alternative in a capturing group of its own (with
    the given names) when [capture] is set. *)
Definition alt_regexp (word capture : bool) (alts names : list string) : Regexp :=
  {| FindAll := fun s => alt_scan word capture alts None s 0 0;
     SubexpNames := "" :: (if capture then names else []) |}.

Definition url_schemes : list string := ["https://"; "http://"; "ftp://"].

Fixpoint non_space_run (s : string) : nat :=
  match s with
  | String c s' => if is_re_space c then O else S (non_space_run s')
  | EmptyString => O
  end.

(** The length of the match of [urlPattern] at the head of [s], if any. *)
Definition url_at (s : string) : option nat :=
  match List.find (fun sch => String.prefix sch s) url_schemes with
  | Some sch =>
      match drop_bytes (String.length sch) s with
      | String c1 (String c2 rest) =>
          if negb (is_re_space c1 || in_cutset c1 "/$.?#")
             && negb (Ascii.eqb c2 "010")
          then Some (String.length sch + 2 + non_space_run rest)%nat
          else None
      | _ => None
      end
  | None => None
  end.

Fixpoint url_scan (s : string) (pos : Z) (skip : nat) : list Match :=
  match s with
  | EmptyString => []
  | String c s' =>
      match skip with
      | S k => url_scan s' (pos + 1)%Z k
      | O =>
          match url_at s with
          | Some n =>
              let span := (pos, (pos + Z.of_nat n)%Z) in
              {| whole := span; groups := [Some span] |}
              :: url_scan s' (pos + 1)%Z (n - 1)
          | None => url_scan s' (pos + 1)%Z 0
          end
      end
  end.

Definition url_regexp : Regexp :=
  {| FindAll := fun s => url_scan s 0 0; SubexpNames := [""; ""] |}.

(** The patterns the examples compile, each with its matcher. *)
Definition demo_patterns : list (string * Regexp) :=
  [(urlPattern, url_regexp);
   ("(x)", alt_regexp false true ["x"] [""]);
   ("(foo)", alt_regexp false true ["foo"] [""]);
   ("(bar)", alt_regexp false true ["bar"] [""]);
   ("\bfoo\b", alt_regexp true false ["foo"] []);
   ("\b(?:foo)\b", alt_regexp true false ["foo"] []);
   ("\b(?:(utilize)|(irregardless))\b",
    alt_regexp true true ["utilize"; "irregardless"] [""; ""]);
   ("\b(?:(irregardless)|(utilize))\b",
    alt_regexp true true ["irregardless"; "utilize"] [""; ""]);
   ("\b(?:(?P<Spelling2>color)|(?P<Spelling3>colour))\b",
    alt_regexp true true ["color"; "colour"] ["Spelling2"; "Spelling3"]);
   ("\b(?:(?P<Spelling4>center)|(?P<Spelling5>centre))\b",
    alt_regexp true true ["center"; "centre"] ["Spelling4"; "Spelling5"])].

Fixpoint assoc {A : Type} (key : string) (table : list (string * A)) : option A :=
  match table with
  | [] => None
  | (k, v) :: rest => if String.eqb key k then Some v else assoc key rest
  end.

(** A definition of the examples: the fields a rule file sets. *)
Definition rule_file (name type : string) (tokens : list string) (max : Z)
    (map : list (string * string)) (if_ then_ exe : string) : definition :=
  {| Description := "see %s"; Exceptions := []; Exe := exe; If := if_;
     Ignorecase := false; Level := "warning"; Link := ""; Map := map;
     Max := max; Message := "found %s"; Name := name; Negate := false;
     Nonword := false; Raw := []; Runtime := "python"; Scope := "text";
     Then := then_; Tokens := tokens; Type_ := type |}.

Definition no_checks : LoadState := {| AllChecks := ∅; printed := [] |}.

Definition new_document : Env :=
  {| file := {| NormedExt := ".md"; Sequences := [] |}; stdout := [] |}.

(** The rule files of the examples, with what the YAML decoder stores. *)
Definition demo_files : list (string * (definition -> definition)) :=
  [("type: occurrence" +:+ String "010" "max: 3",
    fun d => set_Type
      {| Description := Description d; Exceptions := Exceptions d;
         Exe := Exe d; If := If d; Ignorecase := Ignorecase d;
         Level := Level d; Link := Link d; Map := Map d; Max := 3;
         Message := Message d; Name := Name d; Negate := Negate d;
         Nonword := Nonword d; Raw := Raw d; Runtime := Runtime d;
         Scope := Scope d; Then := Then d; Tokens := Tokens d;
         Type_ := Type_ d |} "occurrence");
   ("type: sentiment", fun d => set_Type d "sentiment")].

(** What the script of the examples prints: one record whose [Span] is a
    string.  [encoding/json] reports the type error for that field and
    keeps the rest of the record. *)
Definition quoted (s : string) : string :=
  String "034" s +:+ String "034" "".

Definition demo_script_output : string :=
  "[{" +:+ quoted "Check" +:+ ": " +:+ quoted "demo.Script" +:+ ", "
  +:+ quoted "Span" +:+ ": " +:+ quoted "oops" +:+ "}]".

Definition demo_decoded : list Alert :=
  [{| Alert.Check := "demo.Script"; Alert.Severity := ""; Alert.Span := [];
      Alert.Link := ""; Alert.Message := ""; Alert.Description := "" |}].

#[local] Instance demo : Externals := {|
  Compile := fun s =>
    match assoc s demo_patterns with
    | Some re => inl re
    | None => inr "error parsing regexp"
    end;
  MatchIgnoreByByExtension := ∅;
  FormatMessage := Sprintf;
  LevelToInt := list_to_map [("suggestion", 0%Z); ("warning", 1%Z); ("error", 2%Z)];
  AlertLevels := ["suggestion"; "warning"; "error"];
  StylesPath := "styles";
  FileExists := fun _ => true;
  filepath_Join := fun l => Join l "/";
  Output := fun runtime exe txt =>
    if String.eqb exe "styles/demo/scripts/fail.py"
    then ("", Some "exit status 1")
    else (demo_script_output, None);
  json_Unmarshal := fun out alerts =>
    if String.eqb out demo_script_output
    then (demo_decoded,
          Some "json: cannot unmarshal string into Go struct field Alert.Span of type []int")
    else (alerts, Some "invalid character");
  yaml_Unmarshal := fun file d =>
    match assoc file demo_files with
    | Some decode => (decode d, None)
    | None => (d, Some "yaml: unmarshal errors")
    end;
  Asset := fun name => ("", Some "Asset not found")
|}.


Definition demo_occurrence : definition :=
  rule_file "demo.TooMany" "occurrence" ["\bfoo\b"] 2 [] "" "" "".

Definition demo_existence : definition :=
  rule_file "demo.Banned" "existence" ["foo"] 0 [] "" "" "".

Definition demo_conditional : definition :=
  rule_file "demo.Defined" "conditional" [] 0 [] "(foo)" "(bar)" "".

Definition demo_substitution (map : list (string * string)) : definition :=
  rule_file "demo.Prefer" "substitution" [] 0 map "" "" "".

Definition demo_consistency : definition :=
  rule_file "demo.Spelling" "consistency" [] 0
    [("color", "colour"); ("center", "centre")] "" "" "".

Definition demo_script : definition :=
  rule_file "demo.Script" "script" [] 0 [] "" "" "check.py".

(** The spans of the alerts of a run. *)
Definition spans (r : option (list Alert * Env)) : option (list (list Z)) :=
  (fun r => map Alert.Span (fst r)) <$> r.

(** The sequence of the document after a run. *)
Definition sequence_after (r : option (list Alert * Env)) : option (list string) :=
  (fun r => Sequences (file (snd r))) <$> r.


(** ** A styles directory for the examples of loading *)

(** The rule files of the directory, with what the YAML decoder stores:
    an existence rule and a consistency rule. *)
Definition site_files : list (string * (definition -> definition)) :=
  [("extends: existence",
    fun d => rule_file (Name d) "existence" ["foo"] 0 [] "" "" "");
   ("extends: consistency",
    fun d => rule_file (Name d) "consistency" [] 0
               [("color", "colour"); ("grey", "gr(y")] "" "" "")].

(** The collaborators of the directory: as in the examples above, but the
    pattern to ignore in reStructuredText does not compile, one bundled
    rule exists, and the decoder knows the files of the directory. *)
Definition site : Externals := {|
  Compile := fun s =>
    match assoc s demo_patterns with
    | Some re => inl re
    | None => inr "error parsing regexp"
    end;
  MatchIgnoreByByExtension := {[ ".rst" := "(``" ]};
  FormatMessage := Sprintf;
  LevelToInt := list_to_map [("suggestion", 0%Z); ("warning", 1%Z); ("error", 2%Z)];
  AlertLevels := ["suggestion"; "warning"; "error"];
  StylesPath := "styles";
  FileExists := fun _ => true;
  filepath_Join := fun l => Join l "/";
  Output := fun runtime exe txt => ("[]", None);
  json_Unmarshal := fun out alerts => ([], None);
  yaml_Unmarshal := fun file d =>
    match assoc file site_files with
    | Some decode => (decode d, None)
    | None => (d, Some "yaml: unmarshal errors")
    end;
  Asset := fun name =>
    if String.eqb name "rule/Hedging.yml" then ("extends: existence", None)
    else ("", Some "Asset not found")
|}.

Definition site_disk : list (string * string) :=
  [("styles/house/Banned.yml", "extends: existence");
   ("styles/house/Spelling.yml", "extends: consistency");
   ("styles/house/Broken.yml", "extends");
   ("styles/extra/Banned.yml", "extends: existence")].

Definition regular (dir name : string) : WalkEntry :=
  {| entry_path := dir +:+ "/" +:+ name; entry_info := inl (name, false) |}.

Definition site_fs : FileSystem := {|
  ReadFile := fun path =>
    match assoc path site_disk with
    | Some content => (content, None)
    | None => ("", Some "open: no such file or directory")
    end;
  filepath_Base := fun path => default "" (last (Split path "/"));
  filepath_Dir := fun path => Join (removelast (Split path "/")) "/";
  Walk := fun path =>
    if String.eqb path "styles/house" then
      ([{| entry_path := path; entry_info := inl ("house", true) |};
        regular path "Banned.yml";
        regular path "Broken.yml";
        regular path "Locked.yml";
        regular path "README.md";
        regular path "Spelling.yml";
        {| entry_path := path +:+ "/private";
           entry_info := inr "open: permission denied" |}], None)
    else if String.eqb path "styles/extra" then
      ([{| entry_path := path; entry_info := inl ("extra", true) |};
        regular path "Banned.yml"], None)
    else ([{| entry_path := path;
              entry_info := inr "lstat: no such file or directory" |}], None);
  GBaseStyles := ["vale"; "house"];
  SBaseStyles := [["house"; "extra"]];
  Checks := ["house.Banned"; "other.Rule"; "nodot"; "extra.Banned.v2"]
|}.

(** A registry that holds one check already, under a name of the
    directory. *)
Definition site_seed : definition :=
  rule_file "house.Banned" "existence" ["bar"] 0 [] "" "" "".

Definition site_seed_check : check :=
  {| rule := fun text e =>
       @existence site text site_seed e (alt_regexp true false ["bar"] []);
     extends := "existence"; level := 1; scope := {| Value := "text" |} |}.

Definition site_seeded : LoadState :=
  {| AllChecks := {[ "house.Banned" := site_seed_check ]}; printed := [] |}.

(** The states the examples of loading arrive at. *)
Definition site_banned : LoadState :=
  default no_checks
    (@addCheck site "extends: existence" "house.Banned" no_checks).


Definition site_loaded (st : LoadState) : LoadState :=
  default no_checks (@init site site_fs st).

(** A document in reStructuredText. *)
Definition rst_document : Env :=
  {| file := {| NormedExt := ".rst"; Sequences := [] |}; stdout := [] |}.

(** The names registered and the lines printed of a state. *)
Definition summary (st : LoadState) : list string * list string :=
  (map fst (map_to_list (AllChecks st)), printed st).

(** * Properties *)

(** ** Loops and strings *)

Lemma for_range_shift {A St : Type} (body : A -> St -> option St) i j l s :
  for_range (fun _ => body) i l s = for_range (fun _ => body) j l s.
Proof.
  revert i j s. induction l as [|x l IH]; intros i j s; simpl; [done|].
  destruct (body x s); [apply IH|done].
Qed.

Lemma for_each_cons {A St : Type} (body : A -> St -> option St) x l s :
  for_each body (x :: l) s = body x s ≫= for_each body l.
Proof.
  unfold for_each. simpl. destruct (body x s); simpl; [|done].
  apply for_range_shift.
Qed.

Lemma for_each_nil {A St : Type} (body : A -> St -> option St) s :
  for_each body [] s = Some s.
Proof. done. Qed.

Lemma for_each_app {A St : Type} (body : A -> St -> option St) l1 l2 s :
  for_each body (l1 ++ l2) s = for_each body l1 s ≫= for_each body l2.
Proof.
  revert s. induction l1 as [|x l1 IH]; intros s; [done|].
  simpl. rewrite !for_each_cons. destruct (body x s); simpl; [apply IH|done].
Qed.

Lemma for_each_ext {A St : Type} (f g : A -> St -> option St) l s :
  (forall x s, In x l -> f x s = g x s) -> for_each f l s = for_each g l s.
Proof.
  revert s. induction l as [|x l IH]; intros s Hfg; [done|].
  rewrite !for_each_cons, Hfg by (left; done).
  destruct (g x s); simpl; [|done]. apply IH. intros; apply Hfg; right; done.
Qed.

Lemma FindAllStringIndex_loc_of r s :
  FindAllStringIndex r s = map loc_of (FindAll r s).
Proof. done. Qed.

(** ** Repetition *)

Section Repetition.
Context `{!Externals}.
Variables (txt : string) (chk : definition).

#[local] Abbreviation M := (Z.max 0 (Max chk)).





End Repetition.

(** ** Masking *)

Lemma app_String c s t : String c s +:+ t = String c (s +:+ t).
Proof. done. Qed.

Lemma app_empty_l (t : string) : "" +:+ t = t.
Proof. done. Qed.

Lemma length_app_string s t :
  String.length (s +:+ t) = (String.length s + String.length t)%nat.
Proof. induction s as [|c s IH]; [done|]. rewrite app_String. simpl. lia. Qed.


Lemma string_split_at n s :
  (n <= String.length s)%nat ->
  exists u v, s = u +:+ v /\ String.length u = n.
Proof.
  revert s. induction n as [|n IH]; intros s Hn.
  - exists "", s. done.
  - destruct s as [|c s]; simpl in Hn; [lia|].
    destruct (IH s) as (u & v & -> & Hu); [lia|].
    exists (String c u), v. simpl. split; [done|lia].
Qed.













(** ** The loops over a flat match array *)

Section FlatLoop.
Context {St : Type} (F : nat -> Z -> Z -> St -> option St).
#[local] Abbreviation flat_body := (flat_body F).
#[local] Abbreviation group_body := (group_body F).

Lemma group_start_even k mat :
  (1 <= k)%nat -> group_start (2 * k) mat = negb (mat =? -1)%Z.
Proof.
  intros Hk. unfold group_start.
  replace (2 * k)%nat with (k * 2)%nat by lia. rewrite Nat.Div0.mod_mul.
  destruct (Nat.ltb_spec 0 (k * 2)); [|lia]. rewrite !andb_true_r. done.
Qed.

Lemma group_start_odd k mat : group_start (S (2 * k)) mat = false.
Proof.
  unfold group_start.
  replace (S (2 * k)) with (1 + k * 2)%nat by lia.
  rewrite Nat.Div0.mod_add. simpl. rewrite andb_false_r. done.
Qed.

Lemma for_range_groups gs : forall pre k acc,
  length pre = (2 * k)%nat -> (1 <= k)%nat ->
  for_range (flat_body (pre ++ concat (map flat_group gs))) (2 * k)
    (concat (map flat_group gs)) acc
  = for_each group_body (participants_from k gs) acc.
Proof.
  induction gs as [|g gs IH]; intros pre k acc Hpre Hk; [done|].
  assert (Hnext : forall a b acc',
    for_range (flat_body (pre ++ a :: b :: concat (map flat_group gs)))
      (S (S (2 * k))) (concat (map flat_group gs)) acc'
    = for_each group_body (participants_from (S k) gs) acc').
  { intros a b acc'. replace (S (S (2 * k))) with (2 * S k)%nat by lia.
    replace (pre ++ a :: b :: concat (map flat_group gs))
      with ((pre ++ [a; b]) ++ concat (map flat_group gs))
      by (rewrite <- app_assoc; done).
    apply IH; [rewrite length_app; simpl; lia|lia]. }
  cbn [map concat participants_from].
  destruct g as [[lo hi]|]; cbn [flat_group app for_range].
  - unfold flat_body at 1. rewrite group_start_even by done.
    unfold flat_body at 1. rewrite group_start_odd.
    destruct (Z.eqb_spec lo (-1)) as [->|Hlo]; cbn [negb].
    + cbn [app]. apply Hnext.
    + replace ((pre ++ lo :: hi :: concat (map flat_group gs)) !! (2 * k + 1)%nat)
        with (Some hi).
      2:{ rewrite lookup_app_r by lia.
          replace (2 * k + 1 - length pre)%nat with 1%nat by lia. done. }
      cbn [mbind option_bind]. cbn [app]. rewrite for_each_cons.
      change (group_body (k, (lo, hi)) acc) with (F (2 * k) lo hi acc).
      destruct (F (2 * k) lo hi acc); cbn [mbind option_bind]; [|done].
      apply Hnext.
  - unfold flat_body at 1. rewrite group_start_even by done.
    unfold flat_body at 1. rewrite group_start_odd.
    cbn [Z.eqb negb]. cbn [app]. apply Hnext.
Qed.

Lemma group_start_0 mat : group_start 0 mat = false.
Proof. unfold group_start. destruct (negb _); done. Qed.

Lemma for_range_flat m acc :
  for_range (flat_body (flat m)) 0 (flat m) acc
  = for_each group_body (participants m) acc.
Proof.
  unfold flat at 2. cbn [app for_range].
  unfold flat_body at 1. rewrite group_start_0.
  unfold flat_body at 1.
  change 1%nat with (S (2 * 0)) at 1. rewrite group_start_odd.
  apply (for_range_groups (groups m) [(whole m).1; (whole m).2] 1); done.
Qed.

End FlatLoop.

(** ** What each matcher returns *)

Section Matchers.
Context `{!Externals}.

Lemma makeAlert_span chk txt lo hi :
  makeAlert chk [lo; hi] txt = Some (alert_at chk txt (lo, hi)).
Proof. done. Qed.

Lemma makeAlert_loc_of chk txt m :
  makeAlert chk (loc_of m) txt = Some (alert_at chk txt (whole m)).
Proof. destruct m as [[lo hi] gs]. done. Qed.

Lemma for_each_matches (mk : Match -> Alert) (keep : Match -> bool)
    (body : list Z -> list Alert -> option (list Alert)) ms : forall acc,
  (forall m acc, body (loc_of m) acc
                 = Some (if keep m then acc ++ [mk m] else acc)) ->
  for_each body (map loc_of ms) acc
  = Some (acc ++ map mk (List.filter keep ms)).
Proof.
  induction ms as [|m ms IH]; intros acc Hbody.
  - simpl. rewrite app_nil_r. done.
  - cbn [map]. rewrite for_each_cons, Hbody. cbn [mbind option_bind List.filter].
    rewrite IH by done. destruct (keep m); [|done].
    cbn [map]. rewrite <- app_assoc. done.
Qed.

Lemma filter_all {A : Type} (l : list A) : List.filter (fun _ => true) l = l.
Proof. induction l; simpl; congruence. Qed.

Lemma existence_returns txt chk e r masked :
  cleanText (NormedExt (file e)) txt = Some masked ->
  existence txt chk e r
  = Some (map (fun m => alert_at chk txt (whole m)) (FindAll r masked), e).
Proof.
  intros Hclean. unfold existence. rewrite Hclean. cbn [mbind option_bind].
  rewrite FindAllStringIndex_loc_of.
  rewrite (for_each_matches (fun m => alert_at chk txt (whole m))
             (fun _ => true))
    by (intros; rewrite makeAlert_loc_of; done).
  rewrite filter_all. done.
Qed.

Lemma collect_first_groups r txt : forall sq,
  fold_left
    (fun sq (def : list string) =>
       match def with
       | _ :: d1 :: _ => sq ++ [d1]
       | _ => sq
       end)
    (FindAllStringSubmatch r txt) sq
  = sq ++ first_groups r txt.
Proof.
  unfold FindAllStringSubmatch, first_groups.
  induction (FindAll r txt) as [|m ms IH]; intros sq.
  - simpl. rewrite app_nil_r. done.
  - cbn [map fold_left omap list_omap]. rewrite IH.
    destruct (groups m) as [|g gs]; cbn [map]; [done|].
    rewrite <- app_assoc. done.
Qed.

Lemma conditional_returns txt chk e r0 r1 masked :
  cleanText (NormedExt (file e)) txt = Some masked ->
  let sequences := Sequences (file e) ++ first_groups r0 masked in
  conditional txt chk e [r0; r1]
  = Some (map (fun m => alert_at chk masked (whole m))
            (List.filter (is_flagged chk sequences masked) (FindAll r1 masked)),
          with_Sequences e sequences).
Proof.
  intros Hclean sequences. unfold conditional. rewrite Hclean.
  cbn [mbind option_bind lookup list_lookup].
  rewrite collect_first_groups. fold sequences.
  rewrite FindAllStringIndex_loc_of.
  rewrite (for_each_matches (fun m => alert_at chk masked (whole m))
             (is_flagged chk sequences masked)).
  - done.
  - intros m acc. cbn [loc_of lookup list_lookup mbind option_bind].
    unfold is_flagged, match_text.
    destruct (negb _ && negb _); [|done].
    change [(whole m).1; (whole m).2] with (loc_of m).
    rewrite makeAlert_loc_of. done.
Qed.

Lemma lookup_last {A : Type} (l : list A) :
  l !! Z.to_nat (Z.of_nat (length l) - 1) = last l \/ l = [].
Proof.
  destruct l as [|x l]; [right; done|left].
  rewrite last_lookup. f_equal. simpl length. lia.
Qed.

Lemma occurrence_returns txt chk e r lim masked :
  cleanText (NormedExt (file e)) txt = Some masked ->
  (0 <= lim)%Z ->
  let ms := FindAll r masked in
  ((lim < Z.of_nat (length ms))%Z ->
   exists first last_,
     head ms = Some first /\ last ms = Some last_
     /\ occurrence txt chk e r lim
        = Some ([occurrence_alert chk (fst (whole first)) (snd (whole last_))], e))
  /\ ((Z.of_nat (length ms) <= lim)%Z ->
      occurrence txt chk e r lim = Some ([], e)).
Proof.
  intros Hclean Hlim ms. unfold occurrence. rewrite Hclean.
  cbn [mbind option_bind]. rewrite FindAllStringIndex_loc_of. fold ms.
  rewrite length_map. split; intros Hn.
  - destruct (Z.ltb_spec lim (Z.of_nat (length ms))); [|lia].
    destruct ms as [|first rest] eqn:Hms; [simpl in Hn; lia|].
    rewrite <- Hms in *.
    assert (Hlast : exists l, last ms = Some l).
    { rewrite Hms. destruct (last (first :: rest)) eqn:Hl; [eauto|].
      apply last_None in Hl. done. }
    destruct Hlast as [l Hl]. exists first, l.
    split; [rewrite Hms; done|]. split; [done|].
    replace (map loc_of ms !! 0%nat) with (Some (loc_of first)) by (rewrite Hms; done).
    cbn [mbind option_bind loc_of lookup list_lookup].
    replace (Z.of_nat (length ms)) with (Z.of_nat (length (map loc_of ms)))
      by (rewrite length_map; done).
    destruct (lookup_last (map loc_of ms)) as [->|Hnil];
      [|rewrite Hms in Hnil; done].
    change (map loc_of ms) with (loc_of <$> ms). rewrite fmap_last, Hl. done.
  - destruct (Z.ltb_spec lim (Z.of_nat (length ms))); [lia|done].
Qed.

Lemma for_each_flat {St : Type} (F : nat -> Z -> Z -> St -> option St) ms :
  forall acc,
  for_each (fun submat => for_range (flat_body F submat) 0 submat)
    (map flat ms) acc
  = for_each (group_body F) (concat (map participants ms)) acc.
Proof.
  induction ms as [|m ms IH]; intros acc; [done|].
  cbn [map concat]. rewrite for_each_cons, for_each_app, for_range_flat.
  destruct (for_each (group_body F) (participants m) acc);
    cbn [mbind option_bind]; [apply IH|done].
Qed.

Lemma participants_from_bound gs : forall k j s,
  In (j, s) (participants_from k gs) -> (k <= j < k + length gs)%nat.
Proof.
  induction gs as [|g gs IH]; intros k j s Hin; [done|].
  cbn [participants_from] in Hin. apply in_app_or in Hin as [Hin|Hin].
  - destruct g as [[lo hi]|]; [|done].
    destruct (lo =? -1)%Z; [done|]. destruct Hin as [[= <- <-]|[]].
    simpl. lia.
  - apply IH in Hin. simpl. lia.
Qed.

Lemma participants_bound m j s :
  In (j, s) (participants m) -> (1 <= j <= length (groups m))%nat.
Proof. intros Hin. apply participants_from_bound in Hin. lia. Qed.

Lemma half_double k : (2 * k / 2)%nat = k.
Proof. rewrite Nat.mul_comm. apply Nat.div_mul. done. Qed.

(** *** Substitution *)

Lemma substitution_group_even chk txt repl j lo hi acc :
  substitution_group chk txt repl (2 * j) lo hi acc
  = (rp ← repl !! (j - 1)%nat; Some (acc ++ [recommend chk txt rp (lo, hi)])).
Proof. unfold substitution_group. rewrite half_double. done. Qed.

Lemma substitution_unfold txt chk e r repl masked :
  MatchString r txt = true ->
  cleanText (NormedExt (file e)) txt = Some masked ->
  substitution txt chk e r repl
  = (alerts ← for_each (group_body (substitution_group chk masked repl))
                (concat (map participants (FindAll r masked))) [];
     Some (alerts, e)).
Proof.
  intros Hmatch Hclean. unfold substitution. rewrite Hmatch, Hclean.
  cbn [negb mbind option_bind]. unfold FindAllStringSubmatchIndex.
  rewrite <- for_each_flat. done.
Qed.



(** *** Consistency *)

Lemma consistency_group_even names j lo hi ls :
  consistency_group names (2 * j) lo hi ls
  = (name ← names !! j; Some ([lo; hi], snd ls ++ [name])).
Proof. unfold consistency_group. rewrite half_double. done. Qed.

Lemma consistency_groups names ps : forall loc0 sq,
  for_each (group_body (consistency_group names)) ps (loc0, sq)
  = (ns ← mapM (fun p => names !! fst p) ps;
     Some (last_loc loc0 ps, sq ++ ns)).
Proof.
  induction ps as [|[j [lo hi]] ps IH]; intros loc0 sq.
  - simpl. rewrite app_nil_r. done.
  - rewrite for_each_cons.
    change (group_body _ (j, (lo, hi)) (loc0, sq))
      with (consistency_group names (2 * j) lo hi (loc0, sq)).
    rewrite consistency_group_even. cbn [mapM fst snd].
    destruct (names !! j) as [name|]; cbn [mbind option_bind]; [|done].
    rewrite IH. clear IH. destruct (mapM _ ps) as [ns|]; simpl.
    + rewrite <- app_assoc. f_equal. f_equal.
      unfold last_loc. destruct ps as [|p ps']; [done|].
      rewrite last_cons_cons.
      destruct (last (p :: ps')) eqn:Hl; [done|]. apply last_None in Hl. done.
    + done.
Qed.

Lemma consistency_unfold txt chk e r opts masked :
  cleanText (NormedExt (file e)) txt = Some masked ->
  let ps := concat (map participants (FindAll r masked)) in
  consistency txt chk e r opts
  = (ns ← mapM (fun p => SubexpNames r !! fst p) ps;
     let sequences := Sequences (file e) ++ ns in
     let e' := with_Sequences e sequences in
     if negb (bool_decide (FindAllStringSubmatchIndex r masked = []))
        && AllStringsInSlice opts sequences
     then a ← makeAlert chk (last_loc [] ps) masked; Some ([a], e')
     else Some ([], e')).
Proof.
  intros Hclean ps. unfold consistency. rewrite Hclean.
  cbn [mbind option_bind].
  match goal with |- context [for_each ?f ?l ?a] =>
    assert (Hloop : for_each f l a
              = (ns ← mapM (fun p => SubexpNames r !! fst p) ps;
                 Some (last_loc [] ps, Sequences (file e) ++ ns)))
  end.
  { rewrite <- consistency_groups. unfold ps. rewrite <- for_each_flat. done. }
  rewrite Hloop. destruct (mapM _ ps); done.
Qed.

End Matchers.

(** * The claims *)

Section Claims.
Context `{!Externals}.

Lemma report_nil context st :
  report None context st
  = (true, {| AllChecks := AllChecks st; printed := printed st |}).
Proof. done. Qed.

Lemma report_error err context st :
  report (Some err) context st
  = (false, {| AllChecks := AllChecks st;
               printed := printed st ++ [context +:+ ": " +:+ err] |}).
Proof. done. Qed.

(** C2.  An occurrence rule is compiled when its pattern compiles and its
    maximum is at least 1.  The compiled check counts the matches of the
    pattern in the masked text: more matches than the maximum give exactly
    one alert, from the start of the first match to the end of the last;
    otherwise (no match included) there is no alert. *)
Theorem occurrence_fires_once_over_max
    (chkName : string) (chkDef : definition) (st : LoadState)
    (token : string) (re : Regexp) :
  Tokens chkDef !! 0%nat = Some token ->
  Compile token = inl re ->
  (1 <= Max chkDef)%Z ->
  exists st' c,
    addOccurrenceCheck chkName chkDef st = Some st'
    /\ AllChecks st' !! Name chkDef = Some c
    /\ forall txt e masked,
         cleanText (NormedExt (file e)) txt = Some masked ->
         let ms := FindAll re masked in
         ((Max chkDef < Z.of_nat (length ms))%Z ->
          exists first last_,
            head ms = Some first /\ last ms = Some last_
            /\ rule c txt e
               = Some ([occurrence_alert chkDef (fst (whole first))
                          (snd (whole last_))], e))
         /\ ((Z.of_nat (length ms) <= Max chkDef)%Z ->
             rule c txt e = Some ([], e)).
Proof.
  intros Htoken Hre Hmax. unfold addOccurrenceCheck.
  rewrite Htoken. cbn [mbind option_bind]. rewrite Hre.
  cbn [compile_error]. rewrite report_nil. cbn [fst snd].
  destruct (Z.leb_spec 1 (Max chkDef)); [|lia]. cbn [andb].
  eexists _, _. split; [reflexivity|].
  split; [apply lookup_insert_eq|].
  intros txt e masked Hclean. cbn [rule].
  apply occurrence_returns; [done|lia].
Qed.

(** C4 (amended).  A conditional rule compiles when both patterns compile.
    The compiled check first appends to the document's sequence the first
    capture-group text of every match of the [then] pattern; after that
    every match of the [if] pattern yields one alert unless its text is in
    that sequence or among the rule's exceptions. *)
Theorem conditional_collects_then_flags_if
    (chkName : string) (chkDef : definition) (st : LoadState)
    (reThen reIf : Regexp) :
  Compile (Then chkDef) = inl reThen ->
  Compile (If chkDef) = inl reIf ->
  exists st' c,
    addConditionalCheck chkName chkDef st = Some st'
    /\ AllChecks st' !! Name chkDef = Some c
    /\ forall txt e masked,
         cleanText (NormedExt (file e)) txt = Some masked ->
         let sequences := Sequences (file e) ++ first_groups reThen masked in
         rule c txt e
         = Some (map (fun m => alert_at chkDef masked (whole m))
                   (List.filter (is_flagged chkDef sequences masked)
                      (FindAll reIf masked)),
                 with_Sequences e sequences).
Proof.
  intros Hthen Hif. unfold addConditionalCheck.
  rewrite Hthen. cbn [compile_error]. rewrite report_nil. cbn [fst snd].
  rewrite Hif. cbn [compile_error]. rewrite report_nil. cbn [fst snd].
  eexists _, _. split; [reflexivity|].
  split; [apply lookup_insert_eq|].
  intros txt e masked Hclean. cbn [rule app].
  apply conditional_returns. done.
Qed.

Lemma string_app_assoc (a b c : string) : (a +:+ b) +:+ c = a +:+ (b +:+ c).
Proof. induction a as [|x a IH]; [done|]. rewrite !app_String, IH. done. Qed.

Lemma string_app_empty_r (a : string) : a +:+ "" = a.
Proof. induction a as [|x a IH]; [done|]. rewrite app_String, IH. done. Qed.

Lemma substitution_pairs_kept kvs :
  substitution_pairs kvs = (wrap_all (kept_pairs kvs), map snd (kept_pairs kvs)).
Proof.
  unfold substitution_pairs.
  assert (Hgen : forall tokens repl,
    fold_left
      (fun (acc : string * list string) (kv : string * string) =>
         if negb (Count (fst kv) "(" =? Count (fst kv) "?:")%nat then acc
         else (fst acc +:+ "(" +:+ fst kv +:+ ")|", snd acc ++ [snd kv]))
      kvs (tokens, repl)
    = (tokens +:+ wrap_all (kept_pairs kvs), repl ++ map snd (kept_pairs kvs))).
  { induction kvs as [|kv kvs IH]; intros tokens repl.
    - simpl. rewrite string_app_empty_r, app_nil_r. done.
    - cbn [fold_left kept_pairs List.filter].
      destruct (Count (fst kv) "(" =? Count (fst kv) "?:")%nat; cbn [negb].
      + rewrite IH. cbn [fst snd map wrap_all fold_right].
        rewrite <- app_assoc. f_equal.
        rewrite !string_app_assoc. done.
      + apply IH. }
  rewrite Hgen. done.
Qed.


Lemma AllStringsInSlice_spec strings slice :
  AllStringsInSlice strings slice = true
  <-> forall s, In s strings -> In s slice.
Proof.
  unfold AllStringsInSlice, StringInSlice. rewrite forallb_forall.
  split; intros Hall s Hs; specialize (Hall s Hs).
  - apply existsb_exists in Hall as (x & Hx & Heq).
    apply String.eqb_eq in Heq as ->. done.
  - apply existsb_exists. exists s. split; [done|apply String.eqb_refl].
Qed.

Lemma subs_of_names chkKey count :
  subs_of chkKey count
  = [chkKey +:+ pretty count; chkKey +:+ pretty (count + 1)%Z].
Proof. unfold subs_of. cbn [Sprintf]. rewrite !string_app_empty_r. done. Qed.




Lemma set_Type_twice d n : set_Type (set_Type d n) n = set_Type d n.
Proof. done. Qed.

Lemma consistency_pairs_frame chkName chkKey regex kvs :
  forall cur count st k,
  k <> Name cur ->
  AllChecks (consistency_pairs chkName chkKey regex kvs cur count st) !! k
  = AllChecks st !! k.
Proof.
  induction kvs as [|[v1 v2] kvs IH]; intros cur count st k Hk; [done|].
  cbn [consistency_pairs].
  destruct (Compile _) as [re|err]; cbn [compile_error].
  - rewrite report_nil. cbn [fst snd]. rewrite IH by done.
    cbn [updateAllChecks AllChecks]. apply lookup_insert_ne. done.
  - rewrite report_error. cbn [fst snd]. rewrite IH by done. done.
Qed.

Lemma consistency_pairs_last chkName chkKey regex v1 v2 re init :
  forall cur count st,
  Compile (pair_pattern regex
             (subs_of chkKey (count + 2 * Z.of_nat (length init) + 2)%Z) v1 v2)
  = inl re ->
  rule <$> (AllChecks (consistency_pairs chkName chkKey regex
                         (init ++ [(v1, v2)]) cur count st) !! Name cur)
  = Some (fun text e =>
            consistency text (set_Type cur chkName) e re
              (subs_of chkKey (count + 2 * Z.of_nat (length init) + 2)%Z)).
Proof.
  induction init as [|[w1 w2] init IH]; intros cur count st Hre.
  - cbn [app consistency_pairs length] in *.
    replace (count + 2 * Z.of_nat 0 + 2)%Z with (count + 2)%Z in * by lia.
    rewrite Hre. cbn [compile_error]. rewrite report_nil. cbn [fst snd].
    cbn [updateAllChecks AllChecks]. rewrite lookup_insert_eq. done.
  - cbn [app consistency_pairs].
    replace (count + 2 * Z.of_nat (length ((w1, w2) :: init)) + 2)%Z
      with ((count + 2) + 2 * Z.of_nat (length init) + 2)%Z in *
      by (cbn [length]; lia).
    destruct (Compile (pair_pattern regex (subs_of chkKey (count + 2)%Z) w1 w2))
      as [re'|err]; cbn [compile_error].
    + rewrite report_nil. cbn [fst snd].
      rewrite <- (set_Type_twice cur chkName).
      apply (IH (set_Type cur chkName)). done.
    + rewrite report_error. cbn [fst snd]. apply IH. done.
Qed.

(** C10.  [addConsistencyCheck] compiles the pairs of the map one after the
    other and registers each under the definition's single name.  When the
    last pair visited compiles, the check left under that name is the one
    built from that pair alone: its matcher searches with that pair's
    pattern and looks for that pair's two group names.  No other name of
    the registry changes. *)
Theorem addConsistencyCheck_keeps_last_pair
    (chkName : string) (chkDef : definition) (st : LoadState)
    (chkKey : string) (init : list (string * string)) (v1 v2 : string)
    (re : Regexp) :
  Split chkName "." !! 1%nat = Some chkKey ->
  Map chkDef = init ++ [(v1, v2)] ->
  let count := (2 * Z.of_nat (length init) + 2)%Z in
  Compile (pair_pattern (template_of chkDef) (subs_of chkKey count) v1 v2)
  = inl re ->
  exists st',
    addConsistencyCheck chkName chkDef st = Some st'
    /\ rule <$> (AllChecks st' !! Name chkDef)
       = Some (fun text e =>
                 consistency text (set_Type chkDef chkName) e re
                   (subs_of chkKey count))
    /\ forall k, k <> Name chkDef -> AllChecks st' !! k = AllChecks st !! k.
Proof.
  intros Hkey Hmap count Hre. unfold addConsistencyCheck.
  rewrite Hkey. cbn [mbind option_bind]. eexists. split; [reflexivity|].
  split.
  - rewrite Hmap. apply (consistency_pairs_last _ _ _ _ _ _ init chkDef 0). done.
  - intros k Hk. apply consistency_pairs_frame. done.
Qed.

End Claims.

(** ** Loading *)

Section Loading.
Context `{!Externals}.

Lemma builds_registered d fn st' st :
  printed st' = printed st -> AllChecks st' = AllChecks st ->
  builds d st (Some (updateAllChecks d fn st')) [].
Proof.
  intros Hp Ha. eexists. split; [done|]. cbn [updateAllChecks printed AllChecks].
  rewrite app_nil_r. split; [done|]. intros k Hk.
  rewrite lookup_insert_ne by done. rewrite Ha. done.
Qed.

Lemma builds_unchanged d st st' errs :
  printed st' = printed st ++ errs -> AllChecks st' = AllChecks st ->
  builds d st (Some st') errs.
Proof. intros Hp Ha. eexists. split; [done|]. rewrite Ha. done. Qed.

(** A builder that compiles one pattern and registers on success. *)
Lemma single_pattern_builds d st context pattern (ok : bool) fn :
  exists errs,
    let compiled := Compile pattern in
    let ok_st := report (compile_error compiled) context st in
    let result :=
      match fst ok_st && ok, compiled with
      | true, inl re => Some (updateAllChecks d (fn re) (snd ok_st))
      | _, _ => Some (snd ok_st)
      end in
    builds d st result errs
    /\ (forall line, error_line context compiled = Some line ->
          dropped st result /\ errs = [line]).
Proof.
  destruct (Compile pattern) as [re|err]; cbn [compile_error error_line].
  - exists []. cbn zeta. rewrite report_nil. cbn [fst snd andb]. split; [|done].
    destruct ok; [apply builds_registered; done|].
    apply builds_unchanged; [cbn; rewrite app_nil_r|]; done.
  - eexists [_]. cbn zeta. rewrite report_error. cbn [fst snd andb].
    split; [apply builds_unchanged; done|].
    intros line [= <-]. split; [eexists; done|done].
Qed.

Lemma addExistenceCheck_builds chkName d st :
  exists errs,
    builds d st (addExistenceCheck chkName d st) errs
    /\ (forall line,
          error_line chkName (Compile (existence_pattern d)) = Some line ->
          dropped st (addExistenceCheck chkName d st) /\ errs = [line]).
Proof.
  destruct (single_pattern_builds d st chkName (existence_pattern d) true
              (fun re text e => existence text d e re)) as (errs & Hb & Hd).
  exists errs. unfold addExistenceCheck. cbn zeta in *.
  rewrite andb_true_r in *. done.
Qed.

Lemma addRepetitionCheck_builds chkName d st :
  exists errs,
    builds d st (addRepetitionCheck chkName d st) errs
    /\ (forall line,
          error_line chkName (Compile (repetition_pattern d)) = Some line ->
          dropped st (addRepetitionCheck chkName d st) /\ errs = [line]).
Proof.
  destruct (single_pattern_builds d st chkName (repetition_pattern d) true
              (fun re text e => repetition text d e re)) as (errs & Hb & Hd).
  exists errs. unfold addRepetitionCheck. cbn zeta in *.
  rewrite andb_true_r in *. done.
Qed.

Lemma addSubstitutionCheck_builds chkName d st :
  exists errs,
    builds d st (addSubstitutionCheck chkName d st) errs
    /\ (forall line,
          error_line "addSubstitutionCheck" (Compile (substitution_pattern d))
          = Some line ->
          dropped st (addSubstitutionCheck chkName d st) /\ errs = [line]).
Proof.
  destruct (single_pattern_builds d st "addSubstitutionCheck"
              (substitution_pattern d) true
              (fun re text e =>
                 substitution text d e re (snd (substitution_pairs (Map d)))))
    as (errs & Hb & Hd).
  exists errs. unfold addSubstitutionCheck. cbn zeta in *.
  rewrite andb_true_r in *. done.
Qed.

Lemma addOccurrenceCheck_builds chkName d st token :
  Tokens d !! 0%nat = Some token ->
  exists errs,
    builds d st (addOccurrenceCheck chkName d st) errs
    /\ (forall line,
          error_line chkName (Compile token) = Some line ->
          dropped st (addOccurrenceCheck chkName d st) /\ errs = [line]).
Proof.
  intros Htoken.
  destruct (single_pattern_builds d st chkName token (1 <=? Max d)%Z
              (fun re text e => occurrence text d e re (Max d)))
    as (errs & Hb & Hd).
  exists errs. unfold addOccurrenceCheck. rewrite Htoken.
  cbn [mbind option_bind]. done.
Qed.

Lemma addConditionalCheck_builds chkName d st :
  exists errs,
    builds d st (addConditionalCheck chkName d st) errs
    /\ (forall line,
          match Compile (Then d) with
          | inr err => Some (chkName +:+ ": " +:+ err)
          | inl _ => error_line chkName (Compile (If d))
          end = Some line ->
          dropped st (addConditionalCheck chkName d st) /\ errs = [line]).
Proof.
  unfold addConditionalCheck.
  destruct (Compile (Then d)) as [reThen|err]; cbn [compile_error].
  - rewrite report_nil. cbn [fst snd].
    destruct (Compile (If d)) as [reIf|err]; cbn [compile_error error_line].
    + rewrite report_nil. cbn [fst snd]. exists []. split; [|done].
      apply builds_registered; done.
    + rewrite report_error. cbn [fst snd]. eexists [_].
      split; [apply builds_unchanged; done|].
      intros line [= <-]. split; [eexists; done|done].
  - rewrite report_error. cbn [fst snd]. eexists [_].
    split; [apply builds_unchanged; done|].
    intros line [= <-]. split; [eexists; done|done].
Qed.

Lemma addScriptCheck_builds chkName d st :
  is_Some (Split chkName "." !! 0%nat) ->
  builds d st (addScriptCheck chkName d st) [].
Proof.
  intros [style Hstyle]. unfold addScriptCheck. rewrite Hstyle.
  cbn [mbind option_bind]. destruct (FileExists _).
  - apply builds_registered; done.
  - apply builds_unchanged; [rewrite app_nil_r|]; done.
Qed.

Lemma consistency_pairs_printed chkName chkKey regex kvs :
  forall cur count st,
  exists errs,
    printed (consistency_pairs chkName chkKey regex kvs cur count st)
    = printed st ++ errs.
Proof.
  induction kvs as [|[v1 v2] kvs IH]; intros cur count st.
  - exists []. rewrite app_nil_r. done.
  - cbn [consistency_pairs].
    destruct (Compile _) as [re|err]; cbn [compile_error].
    + rewrite report_nil. cbn [fst snd].
      destruct (IH (set_Type cur chkName) (count + 2)%Z
                  (updateAllChecks (set_Type cur chkName)
                     (fun text e =>
                        consistency text (set_Type cur chkName) e re
                          (subs_of chkKey (count + 2)%Z))
                     {| AllChecks := AllChecks st; printed := printed st |}))
        as (errs & Herrs).
      exists errs. rewrite Herrs. done.
    + rewrite report_error. cbn [fst snd].
      edestruct IH as (errs & Herrs). eexists (_ :: errs).
      rewrite Herrs. cbn [printed]. rewrite <- app_assoc. done.
Qed.

Lemma addConsistencyCheck_builds chkName d st :
  is_Some (Split chkName "." !! 1%nat) ->
  exists errs, builds d st (addConsistencyCheck chkName d st) errs.
Proof.
  intros [chkKey Hkey]. unfold addConsistencyCheck. rewrite Hkey.
  cbn [mbind option_bind].
  destruct (consistency_pairs_printed chkName chkKey (template_of d) (Map d)
              d 0 st) as (errs & Herrs).
  exists errs. eexists. split; [done|]. split; [done|].
  intros k Hk. apply consistency_pairs_frame. done.
Qed.

Lemma split_scan_nonempty sep s : forall skip cur,
  exists x l, split_scan sep s skip cur = x :: l.
Proof.
  induction s as [|c s IH]; intros skip cur; cbn [split_scan]; [eauto|].
  destruct skip; [|apply IH].
  destruct (String.prefix sep (String c s)); [eauto|apply IH].
Qed.

Lemma Split_first s sep : is_Some (Split s sep !! 0%nat).
Proof.
  unfold Split. destruct (split_scan_nonempty sep s 0 "") as (x & l & ->).
  eauto.
Qed.

(** The dispatch of [addCheck] on the (normalised) definition. *)
Lemma dispatch_builds chkName d st :
  ~ (Type_ d = "occurrence" /\ Tokens d = []) ->
  (Type_ d = "consistency" -> is_Some (Split chkName "." !! 1%nat)) ->
  let result :=
    match lookup_builder (Type_ d) typeToFunc with
    | Some addCheckFunc => addCheckFunc chkName d st
    | None => Some st
    end in
  exists errs,
    builds d st result errs
    /\ (lookup_builder (Type_ d) typeToFunc = None ->
        dropped st result /\ errs = [])
    /\ (forall line, rejected_line chkName d = Some line ->
        dropped st result /\ errs = [line]).
Proof.
  intros Hslip Hname. unfold rejected_line. cbn [lookup_builder typeToFunc].
  remember (Type_ d) as kind eqn:Hkind in |- *.
  destruct (String.eqb_spec kind "conditional") as [Hk|_].
  { rewrite ?Hk. cbn [String.eqb Ascii.eqb Bool.eqb andb].
    destruct (addConditionalCheck_builds chkName d st) as (errs & Hb & Hd).
    exists errs. split; [done|]. split; [done|]. exact Hd. }
  destruct (String.eqb_spec kind "consistency") as [Hk|_].
  { rewrite ?Hk. cbn [String.eqb Ascii.eqb Bool.eqb andb].
    destruct (addConsistencyCheck_builds chkName d st) as (errs & Hb);
      [apply Hname; congruence|].
    exists errs. split; [done|]. split; done. }
  destruct (String.eqb_spec kind "existence") as [Hk|_].
  { rewrite ?Hk. cbn [String.eqb Ascii.eqb Bool.eqb andb].
    destruct (addExistenceCheck_builds chkName d st) as (errs & Hb & Hd).
    exists errs. split; [done|]. split; [done|]. exact Hd. }
  destruct (String.eqb_spec kind "occurrence") as [Hk|_].
  { rewrite ?Hk. cbn [String.eqb Ascii.eqb Bool.eqb andb].
    destruct (Tokens d) as [|token rest] eqn:Htokens;
      [exfalso; apply Hslip; split; congruence|].
    destruct (addOccurrenceCheck_builds chkName d st token) as (errs & Hb & Hd);
      [rewrite Htokens; done|].
    exists errs. split; [done|]. split; [done|]. exact Hd. }
  destruct (String.eqb_spec kind "repetition") as [Hk|_].
  { rewrite ?Hk. cbn [String.eqb Ascii.eqb Bool.eqb andb].
    destruct (addRepetitionCheck_builds chkName d st) as (errs & Hb & Hd).
    exists errs. split; [done|]. split; [done|]. exact Hd. }
  destruct (String.eqb_spec kind "script") as [Hk|_].
  { rewrite ?Hk. cbn [String.eqb Ascii.eqb Bool.eqb andb].
    exists []. split; [apply addScriptCheck_builds, Split_first|].
    split; done. }
  destruct (String.eqb_spec kind "substitution") as [Hk|_].
  { rewrite ?Hk. cbn [String.eqb Ascii.eqb Bool.eqb andb].
    destruct (addSubstitutionCheck_builds chkName d st) as (errs & Hb & Hd).
    exists errs. split; [done|]. split; [done|]. exact Hd. }
  exists []. split; [apply builds_unchanged; [rewrite app_nil_r|]; done|].
  split; [intros _; split; [eexists; done|done]|].
  destruct (String.eqb_spec kind "existence"); [done|].
  destruct (String.eqb_spec kind "repetition"); [done|].
  destruct (String.eqb_spec kind "occurrence"); [done|].
  destruct (String.eqb_spec kind "substitution"); [done|].
  destruct (String.eqb_spec kind "conditional"); done.
Qed.

End Loading.

Section MoreClaims.
Context `{!Externals}.

Lemma normalised_fields chkName d :
  Type_ (normalised d) = Type_ d
  /\ Tokens (normalised d) = Tokens d
  /\ Name (normalised d) = Name d
  /\ rejected_line chkName (normalised d) = rejected_line chkName d.
Proof.
  unfold normalised.
  destruct (negb (StringInSlice (Level d) AlertLevels));
    match goal with |- context [String.eqb (Scope ?x) ""] =>
      destruct (String.eqb (Scope x) "") end; done.
Qed.


(** C7 (amended).  For every rule file except one that decodes to an
    occurrence rule without tokens, [addCheck] returns: it only adds lines
    to the output and touches no name of the registry but the rule's own.
    A file that does not decode is dropped with one line reported; a rule
    of an unsupported kind is dropped and nothing is reported; a rule whose
    pattern does not compile is dropped with one line reported. *)
Theorem addCheck_drops_without_aborting
    (file chkName : string) (st : LoadState) :
  let parsed := yaml_Unmarshal file (new_definition chkName) in
  let chkDef := fst parsed in
  ~ (snd parsed = None /\ Type_ chkDef = "occurrence" /\ Tokens chkDef = []) ->
  (Type_ chkDef = "consistency" -> is_Some (Split chkName "." !! 1%nat)) ->
  exists st' errs,
    addCheck file chkName st = Some st'
    /\ printed st' = printed st ++ errs
    /\ (forall k, k <> Name chkDef -> AllChecks st' !! k = AllChecks st !! k)
    /\ (forall err, snd parsed = Some err ->
          AllChecks st' = AllChecks st /\ errs = [chkName +:+ ": " +:+ err])
    /\ (snd parsed = None ->
        lookup_builder (Type_ chkDef) typeToFunc = None ->
        AllChecks st' = AllChecks st /\ errs = [])
    /\ (snd parsed = None ->
        forall line, rejected_line chkName chkDef = Some line ->
        AllChecks st' = AllChecks st /\ errs = [line]).
Proof.
  intros parsed chkDef Hslip Hname. unfold addCheck. fold parsed. fold chkDef.
  destruct (snd parsed) as [err|] eqn:Herr.
  - rewrite report_error. cbn [fst snd negb].
    eexists _, [_]. split; [reflexivity|]. cbn [printed AllChecks].
    split; [done|]. split; [done|]. split; [intros ? [= <-]; done|].
    split; intros; done.
  - rewrite report_nil. cbn [fst snd negb]. fold (normalised chkDef).
    destruct (normalised_fields chkName chkDef) as (Htype & Htokens & Hn & Hline).
    destruct (dispatch_builds chkName (normalised chkDef)
                {| AllChecks := AllChecks st; printed := printed st |})
      as (errs & (st' & Hrun & Hprinted & Hframe) & Hnone & Hrej).
    { rewrite Htype, Htokens. intros [? ?]. apply Hslip. done. }
    { rewrite Htype. done. }
    cbn zeta in *. rewrite Hrun. exists st', errs. split; [done|].
    split; [done|]. split; [rewrite <- Hn; exact Hframe|].
    split; [intros; done|]. split.
    + intros _ Hkind. rewrite <- Htype in Hkind.
      destruct (Hnone Hkind) as [(st'' & Hres & Hsame) ->].
      rewrite Hrun in Hres. injection Hres as <-. done.
    + intros _ line Hl. rewrite <- Hline in Hl.
      destruct (Hrej line Hl) as [(st'' & Hres & Hsame) ->].
      rewrite Hrun in Hres. injection Hres as <-. done.
Qed.

(** C8 (amended).  [script] always returns and leaves the document alone.
    If the process fails, no alert is returned and one line is printed.
    If the process succeeds, the alerts are whatever the decoder has stored,
    also when it reports an error, in which case one line is printed. *)
Theorem script_failure_is_logged
    (txt : string) (chkDef : definition) (exe : string) (e : Env) :
  let out := Output (Runtime chkDef) exe txt in
  let decoded := json_Unmarshal (fst out) [] in
  exists alerts lines,
    script txt chkDef exe e = Some (alerts, with_stdout e (stdout e ++ lines))
    /\ (forall err, snd out = Some err ->
          alerts = [] /\ lines = [exe +:+ ": " +:+ err])
    /\ (snd out = None ->
        alerts = fst decoded
        /\ (forall merr, snd decoded = Some merr ->
              lines = [exe +:+ ": " +:+ merr])
        /\ (snd decoded = None -> lines = [])).
Proof.
  intros out decoded. unfold script. fold out.
  destruct out as [o [err|]] eqn:Hout; cbn [CheckError fst snd] in *.
  - eexists [], [_]. split; [reflexivity|]. split; [intros ? [= <-]; done|done].
  - subst decoded. destruct (json_Unmarshal o []) as [alerts [merr|]];
      cbn [CheckError fst snd].
    + eexists alerts, [_]. split; [reflexivity|]. split; [done|].
      intros _. split; [done|]. split; [intros ? [= <-]; done|done].
    + exists alerts, []. rewrite app_nil_r. split; [reflexivity|].
      split; [done|]. intros _. done.
Qed.

(** ** Running a check twice *)

Lemma StringInSlice_In s l : StringInSlice s l = true <-> In s l.
Proof.
  unfold StringInSlice. rewrite existsb_exists. split.
  - intros (x & Hx & Heq). apply String.eqb_eq in Heq as ->. done.
  - intros Hin. exists s. split; [done|apply String.eqb_refl].
Qed.

Lemma StringInSlice_again s l extra :
  (forall x, In x extra -> In x l) ->
  StringInSlice s (l ++ extra) = StringInSlice s l.
Proof.
  intros Hsub. apply eq_true_iff_eq. rewrite !StringInSlice_In, in_app_iff.
  split; [intros [?|?]; auto|auto].
Qed.

Lemma AllStringsInSlice_again opts l extra :
  (forall x, In x extra -> In x l) ->
  AllStringsInSlice opts (l ++ extra) = AllStringsInSlice opts l.
Proof.
  intros Hsub. unfold AllStringsInSlice.
  induction opts as [|s opts IH]; simpl; [done|].
  rewrite IH, StringInSlice_again by done. done.
Qed.

Lemma filter_ext_in {A : Type} (f g : A -> bool) l :
  (forall x, f x = g x) -> List.filter f l = List.filter g l.
Proof. intros Hfg. induction l as [|x l IH]; simpl; [done|]. rewrite Hfg, IH. done. Qed.

(** C9.  Every closure a builder binds gives, when it is run a second time
    on the same text and on the document as the first run left it, the
    alerts of the first run. *)
Theorem compiled_rule_repeats (fn : ruleFn) :
  compiled_rule fn ->
  forall txt e alerts e1,
    fn txt e = Some (alerts, e1) ->
    exists e2, fn txt e1 = Some (alerts, e2).
Proof.
  intros Hfn txt e alerts e1. destruct Hfn; intros Hrun.
  - (* conditional *)
    destruct (cleanText (NormedExt (file e)) txt) as [masked|] eqn:Hclean;
      [|unfold conditional in Hrun; rewrite Hclean in Hrun; done].
    rewrite (conditional_returns _ _ _ _ _ masked) in Hrun by done.
    injection Hrun as <- <-.
    rewrite (conditional_returns _ _ _ _ _ masked) by done.
    eexists. f_equal. f_equal. f_equal. cbn [with_Sequences file Sequences].
    apply filter_ext_in. intros m. unfold is_flagged. f_equal. f_equal.
    apply StringInSlice_again. intros x Hx. apply in_or_app. right. done.
  - (* consistency *)
    destruct (cleanText (NormedExt (file e)) txt) as [masked|] eqn:Hclean;
      [|unfold consistency in Hrun; rewrite Hclean in Hrun; done].
    rewrite (consistency_unfold _ _ _ _ _ masked) in Hrun by done.
    destruct (mapM _ _) as [ns|] eqn:Hns; [|done].
    cbn [mbind option_bind] in Hrun. cbn zeta in Hrun.
    assert (He1 : e1 = with_Sequences e (Sequences (file e) ++ ns)).
    { destruct (_ && _); [destruct (makeAlert _ _ _)|]; simplify_eq/=; done. }
    subst e1.
    rewrite (consistency_unfold _ _ _ _ _ masked) by done.
    rewrite Hns. cbn [mbind option_bind]. cbn zeta.
    cbn [with_Sequences file Sequences].
    rewrite AllStringsInSlice_again
      by (intros x Hx; apply in_or_app; right; done).
    destruct (_ && _); [destruct (makeAlert _ _ _)|]; simplify_eq/=; eauto.
  - (* existence *)
    destruct (cleanText (NormedExt (file e)) txt) as [masked|] eqn:Hclean;
      [|unfold existence in Hrun; rewrite Hclean in Hrun; done].
    rewrite (existence_returns _ _ _ _ masked) in Hrun by done.
    injection Hrun as <- <-.
    rewrite (existence_returns _ _ _ _ masked) by done. eauto.
  - (* occurrence *)
    assert (e1 = e) as ->; [|eauto].
    unfold occurrence in Hrun.
    destruct (cleanText _ _); [|done]. cbn [mbind option_bind] in Hrun.
    destruct (_ <? _)%Z; [|simplify_eq/=; done].
    repeat match type of Hrun with
           | context [?o ≫= _] => destruct o; cbn [mbind option_bind] in Hrun
           end; simplify_eq/=; done.
  - (* repetition *)
    assert (e1 = e) as ->; [|eauto].
    unfold repetition in Hrun. destruct (for_each _ _ _); simplify_eq/=; done.
  - (* script *)
    unfold script in *.
    destruct (Output _ _ _) as [o [err|]]; cbn [CheckError] in *.
    + simplify_eq/=. eauto.
    + destruct (json_Unmarshal o []) as [al [merr|]]; cbn [CheckError] in *;
        simplify_eq/=; eauto.
  - (* substitution *)
    assert (e1 = e) as ->; [|eauto].
    unfold substitution in Hrun.
    destruct (negb _); [simplify_eq/=; done|].
    destruct (cleanText _ _); [|done]. cbn [mbind option_bind] in Hrun.
    destruct (for_each _ _ _); simplify_eq/=; done.
Qed.

End MoreClaims.

Section Masking.
Context `{!Externals}.







End Masking.

(** ** The registry holds compiled rules only *)

Section Registry.
Context `{!Externals}.

Lemma updateAllChecks_compiled d fn st :
  compiled_rule fn -> all_compiled st ->
  all_compiled (updateAllChecks d fn st).
Proof.
  intros Hfn Hst k c. cbn [updateAllChecks AllChecks].
  rewrite lookup_insert. case_decide; [intros [= <-]; done|apply Hst].
Qed.

Lemma report_compiled err context st :
  all_compiled st -> all_compiled (snd (report err context st)).
Proof. intros Hst. destruct err; exact Hst. Qed.

Lemma consistency_pairs_compiled chkName chkKey regex kvs :
  forall cur count st,
  all_compiled st ->
  all_compiled (consistency_pairs chkName chkKey regex kvs cur count st).
Proof.
  induction kvs as [|[v1 v2] kvs IH]; intros cur count st Hst; [done|].
  cbn [consistency_pairs].
  destruct (Compile _) as [re|err]; cbn [compile_error].
  - rewrite report_nil. cbn [fst snd]. apply IH.
    apply updateAllChecks_compiled; [constructor|done].
  - rewrite report_error. cbn [fst snd]. apply IH. done.
Qed.

Lemma builders_compiled key f chkName d st st' :
  lookup_builder key typeToFunc = Some f ->
  all_compiled st -> f chkName d st = Some st' -> all_compiled st'.
Proof.
  cbn [lookup_builder typeToFunc]. intros Hf Hst.
  repeat match type of Hf with
         | (if ?b then _ else _) = _ => destruct b
         end; try done; injection Hf as <-.
  - unfold addConditionalCheck.
    destruct (Compile (Then d)); cbn [compile_error];
      rewrite ?report_nil, ?report_error; cbn [fst snd];
      [|intros [= <-]; done].
    destruct (Compile (If d)); cbn [compile_error];
      rewrite ?report_nil, ?report_error; cbn [fst snd];
      intros [= <-]; [|done].
    apply updateAllChecks_compiled; [constructor|done].
  - unfold addConsistencyCheck. destruct (Split chkName "." !! 1%nat); [|done].
    cbn [mbind option_bind]. intros [= <-].
    apply consistency_pairs_compiled. done.
  - unfold addExistenceCheck.
    destruct (Compile _); cbn [compile_error];
      rewrite ?report_nil, ?report_error; cbn [fst snd];
      intros [= <-]; [|done].
    apply updateAllChecks_compiled; [constructor|done].
  - unfold addOccurrenceCheck. destruct (Tokens d !! 0%nat); [|done].
    cbn [mbind option_bind].
    destruct (Compile _); cbn [compile_error];
      rewrite ?report_nil, ?report_error; cbn [fst snd andb];
      [destruct (1 <=? Max d)%Z|]; intros [= <-]; try done.
    apply updateAllChecks_compiled; [constructor|done].
  - unfold addRepetitionCheck.
    destruct (Compile _); cbn [compile_error];
      rewrite ?report_nil, ?report_error; cbn [fst snd];
      intros [= <-]; [|done].
    apply updateAllChecks_compiled; [constructor|done].
  - unfold addScriptCheck. destruct (Split chkName "." !! 0%nat); [|done].
    cbn [mbind option_bind]. destruct (FileExists _); intros [= <-]; [|done].
    apply updateAllChecks_compiled; [constructor|done].
  - unfold addSubstitutionCheck.
    destruct (Compile _); cbn [compile_error];
      rewrite ?report_nil, ?report_error; cbn [fst snd];
      intros [= <-]; [|done].
    apply updateAllChecks_compiled; [constructor|done].
Qed.

(** Every rule [addCheck] leaves in the registry is one of the seven
    closures. *)
Lemma addCheck_compiled file chkName st st' :
  all_compiled st -> addCheck file chkName st = Some st' -> all_compiled st'.
Proof.
  intros Hst. unfold addCheck.
  destruct (snd (yaml_Unmarshal file (new_definition chkName))) as [err|].
  - rewrite report_error. cbn [fst snd negb]. intros [= <-]. done.
  - rewrite report_nil. cbn [fst snd negb].
    destruct (lookup_builder _ typeToFunc) as [f|] eqn:Hf;
      [|intros [= <-]; done].
    apply (builders_compiled _ _ _ _ _ _ Hf). done.
Qed.

Lemma split_scan_other c s cur :
  c <> "."%char ->
  split_scan "." (String c s) 0 cur = split_scan "." s 0 (cur +:+ String c "").
Proof.
  intros Hc. cbn [split_scan String.prefix].
  destruct (ascii_dec "." c) as [<-|_]; done.
Qed.

Lemma split_scan_dot s cur :
  split_scan "." (String "." s) 0 cur = cur :: split_scan "." s 0 "".
Proof.
  cbn [split_scan String.prefix].
  destruct (ascii_dec "." "."); [|done]. destruct s; done.
Qed.



End Registry.

(** * The claims on concrete rules and documents *)


(** C2 on the specification's example: the pattern [\bfoo\b] with
    [max = 2] gives one alert from the first to the last of three [foo],
    and none for two. *)
Lemma occurrence_three_foo :
  exists st c,
    addOccurrenceCheck "demo.TooMany" demo_occurrence no_checks = Some st
    /\ AllChecks st !! "demo.TooMany" = Some c
    /\ rule c "foo foo foo" new_document
       = Some ([occurrence_alert demo_occurrence 0 11], new_document)
    /\ rule c "foo foo" new_document = Some ([], new_document).
Proof.
  destruct (occurrence_fires_once_over_max "demo.TooMany" demo_occurrence
              no_checks "\bfoo\b" (alt_regexp true false ["foo"] []))
    as (st & c & Hadd & Hlookup & Hrule);
    [reflexivity | reflexivity | vm_compute; discriminate |].
  exists st, c. split; [exact Hadd|]. split; [exact Hlookup|]. split.
  - destruct (Hrule "foo foo foo" new_document "foo foo foo" eq_refl)
      as [Hover _].
    destruct Hover as (first & last_ & Hfirst & Hlast & Hrun);
      [vm_compute; reflexivity|].
    vm_compute in Hfirst, Hlast. injection Hfirst as <-. injection Hlast as <-.
    exact Hrun.
  - destruct (Hrule "foo foo" new_document "foo foo" eq_refl) as [_ Hunder].
    apply Hunder. vm_compute. discriminate.
Defined.



(** C4, as stated, fails: with [if: (foo)] and [then: (bar)] on "foo bar"
    the compiled check collects [bar], the capture of the [then] pattern,
    and flags [foo], the match of the [if] pattern; the matcher worded by
    the specification collects [foo] and flags [bar]. *)
Lemma conditional_roles_are_swapped :
  exists st c,
    addConditionalCheck "demo.Defined" demo_conditional no_checks = Some st
    /\ AllChecks st !! "demo.Defined" = Some c
    /\ Compile (If demo_conditional) = inl (alt_regexp false true ["foo"] [""])
    /\ Compile (Then demo_conditional) = inl (alt_regexp false true ["bar"] [""])
    /\ spans (rule c "foo bar" new_document) = Some [[0; 3]%Z]
    /\ sequence_after (rule c "foo bar" new_document) = Some ["bar"]
    /\ spans (conditional_as_worded "foo bar" demo_conditional new_document
                (alt_regexp false true ["foo"] [""])
                (alt_regexp false true ["bar"] [""]))
       = Some [[4; 7]%Z]
    /\ sequence_after
         (conditional_as_worded "foo bar" demo_conditional new_document
            (alt_regexp false true ["foo"] [""])
            (alt_regexp false true ["bar"] [""]))
       = Some ["foo"].
Proof.
  eexists _, _. split; [reflexivity|]. split; [apply lookup_insert_eq|].
  repeat split; vm_compute; reflexivity.
Qed.

(** C4 (amended) on that rule: [bar] is collected and [foo] is flagged. *)
Lemma conditional_foo_bar :
  exists st c,
    addConditionalCheck "demo.Defined" demo_conditional no_checks = Some st
    /\ AllChecks st !! "demo.Defined" = Some c
    /\ rule c "foo bar" new_document
       = Some ([alert_at demo_conditional "foo bar" (0, 3)%Z],
               with_Sequences new_document ["bar"]).
Proof.
  destruct (conditional_collects_then_flags_if "demo.Defined" demo_conditional
              no_checks (alt_regexp false true ["bar"] [""])
              (alt_regexp false true ["foo"] [""]))
    as (st & c & Hadd & Hlookup & Hrule); [reflexivity | reflexivity |].
  exists st, c. split; [exact Hadd|]. split; [exact Hlookup|].
  exact (Hrule "foo bar" new_document "foo bar" eq_refl).
Defined.



(** C7, as stated, fails twice: a rule file that decodes to an occurrence
    rule without tokens makes [addCheck] panic, and a rule of an
    unsupported kind is dropped without anything being reported. *)
Lemma addCheck_aborts_or_is_silent :
  addCheck ("type: occurrence" +:+ String "010" "max: 3") "demo.Many" no_checks
  = None
  /\ addCheck "type: sentiment" "demo.Mood" no_checks = Some no_checks.
Proof. split; vm_compute; reflexivity. Qed.

(** C7 (amended) on a rule of an unsupported kind and on a file that does
    not decode. *)
Lemma addCheck_unsupported_kind :
  (exists st,
     addCheck "type: sentiment" "demo.Mood" no_checks = Some st
     /\ AllChecks st = ∅ /\ printed st = [])
  /\ (exists st,
        addCheck "garbage" "demo.Mood" no_checks = Some st
        /\ AllChecks st = ∅
        /\ printed st = ["demo.Mood: yaml: unmarshal errors"]).
Proof.
  split.
  - destruct (addCheck_drops_without_aborting "type: sentiment" "demo.Mood"
                no_checks)
      as (st & errs & Hrun & Hprinted & _ & _ & Hkind & _).
    { intros (_ & Hocc & _). vm_compute in Hocc. discriminate Hocc. }
    { intros Hcons. vm_compute in Hcons. discriminate Hcons. }
    destruct (Hkind eq_refl eq_refl) as [Hsame ->].
    exists st. split; [exact Hrun|]. split; [exact Hsame|exact Hprinted].
  - destruct (addCheck_drops_without_aborting "garbage" "demo.Mood" no_checks)
      as (st & errs & Hrun & Hprinted & _ & Hyaml & _).
    { intros (Hok & _). vm_compute in Hok. discriminate Hok. }
    { intros Hcons. vm_compute in Hcons. discriminate Hcons. }
    destruct (Hyaml _ eq_refl) as [Hsame ->].
    exists st. split; [exact Hrun|]. split; [exact Hsame|exact Hprinted].
Defined.

(** C8, as stated, fails: the script prints an array whose one record has
    a string where the span belongs.  The decoder reports the error and has
    stored the record; the compiled script check prints the error and
    returns the record. *)
Lemma script_keeps_decoded_records :
  exists st c,
    addScriptCheck "demo.Script" demo_script no_checks = Some st
    /\ AllChecks st !! "demo.Script" = Some c
    /\ Output "python" "styles/demo/scripts/check.py" "some text"
       = (demo_script_output, None)
    /\ is_Some (snd (json_Unmarshal demo_script_output []))
    /\ rule c "some text" new_document
       = Some (demo_decoded,
               with_stdout new_document
                 ["styles/demo/scripts/check.py: json: cannot unmarshal string into Go struct field Alert.Span of type []int"])
    /\ length demo_decoded = 1%nat.
Proof.
  eexists _, _. split; [reflexivity|]. split; [apply lookup_insert_eq|].
  split; [reflexivity|]. split; [eexists; reflexivity|].
  split; vm_compute; reflexivity.
Qed.

(** C8 (amended) on a process that fails and on the script above. *)
Lemma script_failed_process :
  script "some text" demo_script "styles/demo/scripts/fail.py" new_document
  = Some ([], with_stdout new_document
                ["styles/demo/scripts/fail.py: exit status 1"])
  /\ exists lines,
       script "some text" demo_script "styles/demo/scripts/check.py"
         new_document
       = Some (demo_decoded, with_stdout new_document lines)
       /\ length lines = 1%nat.
Proof.
  split.
  - destruct (script_failure_is_logged "some text" demo_script
                "styles/demo/scripts/fail.py" new_document)
      as (alerts & lines & Hrun & Hfail & _).
    destruct (Hfail _ eq_refl) as [-> ->]. exact Hrun.
  - destruct (script_failure_is_logged "some text" demo_script
                "styles/demo/scripts/check.py" new_document)
      as (alerts & lines & Hrun & _ & Hdecode).
    destruct (Hdecode eq_refl) as (-> & Hline & _).
    rewrite (Hline _ eq_refl) in Hrun. eexists. split; [exact Hrun|reflexivity].
Defined.

(** C9 on the consistency check of a variant pair, run twice on a document
    that uses both variants. *)
Lemma consistency_run_twice :
  let r := alt_regexp true true ["color"; "colour"] ["Spelling2"; "Spelling3"] in
  let fn : ruleFn :=
    fun text e => consistency text demo_consistency e r (subs_of "Spelling" 2) in
  exists e2,
    fn "color and colour"
      (with_Sequences new_document ["Spelling2"; "Spelling3"])
    = Some ([alert_at demo_consistency "color and colour" (10, 16)%Z], e2).
Proof.
  intros r fn.
  apply (compiled_rule_repeats fn
           (compiled_consistency demo_consistency r (subs_of "Spelling" 2))
           "color and colour" new_document).
  vm_compute. reflexivity.
Defined.

(** C10 on a map of two pairs: the check left under the rule's name is the
    one of the pair visited last, so a document that mixes the variants of
    the first pair is not flagged, and one that mixes those of the last
    pair is. *)
Lemma consistency_two_pairs :
  exists st c,
    addConsistencyCheck "demo.Spelling" demo_consistency no_checks = Some st
    /\ AllChecks st !! "demo.Spelling" = Some c
    /\ rule c
       = (fun text e =>
            consistency text (set_Type demo_consistency "demo.Spelling") e
              (alt_regexp true true ["center"; "centre"]
                 ["Spelling4"; "Spelling5"])
              (subs_of "Spelling" 4))
    /\ spans (rule c "color and colour" new_document) = Some []
    /\ spans (rule c "center and centre" new_document) = Some [[11; 17]%Z].
Proof.
  destruct (addConsistencyCheck_keeps_last_pair "demo.Spelling"
              demo_consistency no_checks "Spelling" [("color", "colour")]
              "center" "centre"
              (alt_regexp true true ["center"; "centre"]
                 ["Spelling4"; "Spelling5"]))
    as (st & Hadd & Hrule & _); [reflexivity | reflexivity | reflexivity |].
  destruct (AllChecks st !! Name demo_consistency) as [c|] eqn:Hlookup;
    [|discriminate Hrule].
  injection Hrule as Hrule.
  exists st, c. split; [exact Hadd|]. split; [exact Hlookup|].
  split; [exact Hrule|]. rewrite Hrule. split; vm_compute; reflexivity.
Defined.

(** ** The string functions on examples *)

Example TrimSpace_ex : TrimSpace (bytes [32; 194; 160; 120; 32; 121; 10]) = "x y".
Proof. vm_compute. reflexivity. Qed.

Example Split_ex : Split "vale.Repetition" "." = ["vale"; "Repetition"].
Proof. reflexivity. Qed.

Example Replace_ex : Replace "ababa aba" "aba" (Repeat "*" 3) = "***ba ***".
Proof. reflexivity. Qed.

Example Count_ex : Count "(?:a|b)(c)" "(" = 2%nat /\ Count "(?:a|b)(c)" "?:" = 1%nat.
Proof. split; reflexivity. Qed.

Example TrimRight_ex : TrimRight "(a)|(b)|" "|" = "(a)|(b)".
Proof. reflexivity. Qed.

Example Sprintf_ex :
  Sprintf "(?P<%s>%s)|(?P<%s>%s)" ["k2"; "a"; "k3"; "b"] = "(?P<k2>a)|(?P<k3>b)".
Proof. reflexivity. Qed.

Example url_regexp_ex :
  FindAll url_regexp "see http://foo.io/x?y=1 and foo; ftp://a"
  = [{| whole := (4, 23)%Z; groups := [Some (4, 23)%Z] |}].
Proof. vm_compute. reflexivity. Qed.

Example alt_regexp_ex :
  map whole (FindAll (alt_regexp true true ["color"; "colour"] ["a"; "b"])
               "color colour colours color")
  = [(0, 5)%Z; (6, 12)%Z; (21, 26)%Z].
Proof. vm_compute. reflexivity. Qed.

(** * Further properties of the matchers *)

Section MoreMatchers.
Context `{!Externals}.

Lemma cleanText_fails ext txt err :
  Compile (mask_pattern ext) = inr err -> cleanText ext txt = None.
Proof.
  intros Herr. unfold cleanText, MustCompile. fold (mask_pattern ext).
  rewrite Herr. done.
Qed.

(** X1.  When the masking pattern of the document's format does not compile,
    [existence], [occurrence], [conditional] and [consistency] panic on
    every text; [substitution] panics exactly on the texts its pattern
    matches and returns no alert on the others. *)
Theorem matchers_panic_without_mask
    (txt : string) (chk : definition) (e : Env) (err : string) :
  Compile (mask_pattern (NormedExt (file e))) = inr err ->
  (forall r, existence txt chk e r = None)
  /\ (forall r lim, occurrence txt chk e r lim = None)
  /\ (forall rs, conditional txt chk e rs = None)
  /\ (forall r opts, consistency txt chk e r opts = None)
  /\ (forall r repl,
        substitution txt chk e r repl
        = if MatchString r txt then None else Some ([], e)).
Proof.
  intros Herr. pose proof (cleanText_fails _ txt _ Herr) as Hnone.
  repeat split; intros.
  - unfold existence. rewrite Hnone. done.
  - unfold occurrence. rewrite Hnone. done.
  - unfold conditional. rewrite Hnone. done.
  - unfold consistency. rewrite Hnone. done.
  - unfold substitution. destruct (MatchString r txt); [|done].
    cbn [negb]. rewrite Hnone. done.
Qed.

(** X2.  [existence] gives one alert for every match found in the masked copy,
    in order: it carries the rule's name, level and link, the span of the
    match, and a message formatted with the bytes of the unmasked text at
    that span.  The document is left as it was. *)
Theorem existence_one_alert_per_match
    (txt : string) (chk : definition) (e : Env) (r : Regexp)
    (masked : string) :
  cleanText (NormedExt (file e)) txt = Some masked ->
  exists alerts,
    existence txt chk e r = Some (alerts, e)
    /\ Forall2
         (fun a m =>
            Alert.Check a = Name chk /\ Alert.Severity a = Level chk
            /\ Alert.Link a = Link chk /\ Alert.Span a = loc_of m
            /\ Alert.Message a
               = FormatMessage (Message chk)
                   [slice txt (fst (whole m)) (snd (whole m))])
         alerts (FindAll r masked).
Proof.
  intros Hclean. eexists. split; [apply existence_returns; done|].
  induction (FindAll r masked) as [|[[lo hi] gs] ms IH]; cbn [map];
    constructor; [done|exact IH].
Qed.

(** X3.  Once the text is masked, [occurrence] panics exactly when the limit is
    negative and the pattern has no match. *)
Theorem occurrence_panics_iff
    (txt : string) (chk : definition) (e : Env) (r : Regexp) (lim : Z)
    (masked : string) :
  cleanText (NormedExt (file e)) txt = Some masked ->
  occurrence txt chk e r lim = None
  <-> (lim < 0)%Z /\ FindAll r masked = [].
Proof.
  intros Hclean. unfold occurrence. rewrite Hclean.
  cbn [mbind option_bind]. rewrite FindAllStringIndex_loc_of.
  destruct (FindAll r masked) as [|first rest] eqn:Hms.
  - cbn [length map]. destruct (Z.ltb_spec lim (Z.of_nat 0)); simpl.
    + split; [intros _; split; [lia|done]|done].
    + split; [done|intros [? _]; lia].
  - remember (map loc_of (first :: rest)) as locs eqn:Hlocs.
    destruct (Z.ltb_spec lim (Z.of_nat (length locs)));
      [|split; [done|intros [_ ?]; done]].
    split; [|intros [_ ?]; done]. intros Hnone. exfalso.
    assert (Hfirst : locs !! 0%nat = Some (loc_of first)) by (subst; done).
    assert (Hlast : exists l,
              locs !! Z.to_nat (Z.of_nat (length locs) - 1) = Some (loc_of l)).
    { destruct (lookup_last locs) as [->|Hnil]; [|subst; done].
      subst locs. change (map loc_of (first :: rest))
        with (loc_of <$> first :: rest).
      rewrite fmap_last.
      destruct (last (first :: rest)) as [l|] eqn:Hl;
        [eauto|apply last_None in Hl; done]. }
    destruct Hlast as [l Hlast]. rewrite Hfirst in Hnone.
    cbn [mbind option_bind loc_of lookup list_lookup] in Hnone.
    rewrite Hlast in Hnone. done.
Qed.

Lemma substitution_groups_none chk txt repl ps : forall acc,
  (forall p, In p ps -> (1 <= fst p)%nat) ->
  for_each (group_body (substitution_group chk txt repl)) ps acc = None
  <-> exists p, In p ps /\ (length repl < fst p)%nat.
Proof.
  induction ps as [|[j [lo hi]] ps IH]; intros acc Hpos.
  - split; [done|intros (p & [] & _)].
  - rewrite for_each_cons.
    change (group_body _ (j, (lo, hi)) acc)
      with (substitution_group chk txt repl (2 * j) lo hi acc).
    rewrite substitution_group_even.
    pose proof (Hpos (j, (lo, hi)) (or_introl eq_refl)) as Hj. cbn in Hj.
    destruct (repl !! (j - 1)%nat) as [rp|] eqn:Hrp; cbn [mbind option_bind].
    + apply lookup_lt_Some in Hrp.
      rewrite IH by (intros; apply Hpos; right; done).
      split; intros (p & Hp & Hlen).
      * exists p. split; [right; done|done].
      * destruct Hp as [<-|Hp]; [cbn in Hlen; lia|]. exists p. done.
    + apply lookup_ge_None in Hrp. split; [|done]. intros _.
      exists (j, (lo, hi)). split; [left; done|cbn; lia].
Qed.

(** X4.  On a text its pattern matches, and once the text is masked,
    [substitution] panics exactly when a group takes part in a match whose
    number exceeds the number of replacements. *)
Theorem substitution_panics_iff
    (txt : string) (chk : definition) (e : Env) (r : Regexp)
    (repl : list string) (masked : string) :
  MatchString r txt = true ->
  cleanText (NormedExt (file e)) txt = Some masked ->
  substitution txt chk e r repl = None
  <-> exists m p, In m (FindAll r masked) /\ In p (participants m)
                  /\ (length repl < fst p)%nat.
Proof.
  intros Hmatch Hclean.
  rewrite (substitution_unfold _ _ _ _ _ masked) by done.
  destruct (for_each _ _ _) as [alerts|] eqn:Hloop; cbn [mbind option_bind].
  - split; [done|]. intros (m & p & Hm & Hp & Hlen). exfalso.
    assert (Hnone : for_each
              (group_body (substitution_group chk masked repl))
              (concat (map participants (FindAll r masked))) [] = None);
      [|congruence].
    apply substitution_groups_none.
    + intros [j s] Hin. apply in_concat in Hin as (ps & Hps & Hin).
      apply in_map_iff in Hps as (m' & <- & _).
      apply participants_bound in Hin. cbn. lia.
    + exists p. split; [|done]. apply in_concat. exists (participants m).
      split; [apply in_map; done|done].
  - split; [intros _|done].
    apply substitution_groups_none in Hloop as (p & Hp & Hlen).
    + apply in_concat in Hp as (ps & Hps & Hp).
      apply in_map_iff in Hps as (m & <- & Hm). eauto.
    + intros [j s] Hin. apply in_concat in Hin as (ps & Hps & Hin).
      apply in_map_iff in Hps as (m' & <- & _).
      apply participants_bound in Hin. cbn. lia.
Qed.

Lemma names_in_range (names : list string) (ps : list (nat * (Z * Z))) :
  (forall p, In p ps -> (fst p < length names)%nat) ->
  exists ns, mapM (fun p => names !! fst p) ps = Some ns
             /\ length ns = length ps.
Proof.
  induction ps as [|p ps IH]; intros Hps; [exists []; done|].
  destruct IH as (ns & Hns & Hlen); [intros; apply Hps; right; done|].
  destruct (names !! fst p) as [name|] eqn:Hname.
  - exists (name :: ns). cbn [mapM]. rewrite Hname, Hns. simpl.
    split; [done|lia].
  - apply lookup_ge_None in Hname.
    specialize (Hps p (or_introl eq_refl)). lia.
Qed.

(** X5.  [consistency] on a document that may already carry names: when the
    pattern has a name for every group and a group takes part in every
    match, it returns, it appends one name for every group that took part,
    and it raises its one alert exactly when the text has a match and all
    the names it looks for are in the sequence it leaves, whether this
    text or an earlier one put them there. *)
Theorem consistency_fires_iff
    (txt : string) (chk : definition) (e : Env) (r : Regexp)
    (opts : list string) (masked : string) :
  cleanText (NormedExt (file e)) txt = Some masked ->
  (forall m p, In m (FindAll r masked) -> In p (participants m) ->
               (fst p < length (SubexpNames r))%nat) ->
  (forall m, In m (FindAll r masked) -> participants m <> []) ->
  exists alerts ns,
    consistency txt chk e r opts
    = Some (alerts, with_Sequences e (Sequences (file e) ++ ns))
    /\ length ns = length (concat (map participants (FindAll r masked)))
    /\ (length alerts <= 1)%nat
    /\ (alerts <> []
        <-> FindAll r masked <> []
            /\ forall name, In name opts -> In name (Sequences (file e) ++ ns)).
Proof.
  intros Hclean Hnames Hpart.
  rewrite (consistency_unfold _ _ _ _ _ masked) by done.
  destruct (names_in_range (SubexpNames r)
              (concat (map participants (FindAll r masked))))
    as (ns & Hns & Hlen).
  { intros p Hin. apply in_concat in Hin as (ps & Hps & Hin).
    apply in_map_iff in Hps as (m & <- & Hm). eauto. }
  rewrite Hns. cbn [mbind option_bind]. cbn zeta.
  assert (Hnil : FindAllStringSubmatchIndex r masked = []
                 <-> FindAll r masked = []).
  { unfold FindAllStringSubmatchIndex. split; [apply map_eq_nil|].
    intros ->. done. }
  destruct (decide (FindAllStringSubmatchIndex r masked = [])) as [Hno|Hsome].
  - rewrite bool_decide_eq_true_2 by done. cbn [negb andb].
    exists [], ns. split; [done|]. split; [done|]. split; [simpl; lia|].
    split; [done|]. intros [Hms _]. apply Hnil in Hno. done.
  - rewrite bool_decide_eq_false_2 by done. cbn [negb andb].
    destruct (AllStringsInSlice opts _) eqn:Hall.
    + destruct (FindAll r masked) as [|m ms] eqn:Hms;
        [exfalso; apply Hsome, Hnil; done|].
      assert (Hlast : exists p,
                last (concat (map participants (m :: ms))) = Some p).
      { destruct (last _) as [p|] eqn:Hl; [eauto|].
        apply last_None in Hl. cbn [map concat] in Hl.
        apply app_eq_nil in Hl as [Hl _].
        exfalso. apply (Hpart m); [left; done|done]. }
      destruct Hlast as ([j [lo hi]] & Hlast).
      unfold last_loc. rewrite Hlast. cbn [fst snd].
      rewrite makeAlert_span. cbn [mbind option_bind].
      eexists [_], ns. split; [done|]. split; [done|]. split; [simpl; lia|].
      split; [|done]. intros _. split; [done|].
      apply AllStringsInSlice_spec. done.
    + exists [], ns. split; [done|]. split; [done|]. split; [simpl; lia|].
      split; [done|]. intros [_ Hin].
      apply AllStringsInSlice_spec in Hin. congruence.
Qed.

(** X6.  A conditional rule remembers across the texts of one document: what
    the first text defined is still in the sequence when the second text
    is checked, so no alert of the second run sits on a match whose text
    the first text defined. *)
Theorem conditional_remembers_earlier_definitions
    (txt1 txt2 : string) (chk : definition) (e : Env) (r0 r1 : Regexp)
    (masked1 masked2 : string) :
  cleanText (NormedExt (file e)) txt1 = Some masked1 ->
  cleanText (NormedExt (file e)) txt2 = Some masked2 ->
  exists alerts1 e1 alerts2 e2,
    conditional txt1 chk e [r0; r1] = Some (alerts1, e1)
    /\ conditional txt2 chk e1 [r0; r1] = Some (alerts2, e2)
    /\ Sequences (file e2)
       = Sequences (file e) ++ first_groups r0 masked1
         ++ first_groups r0 masked2
    /\ forall m, In m (FindAll r1 masked2) ->
         In (match_text masked2 m) (first_groups r0 masked1) ->
         forall a, In a alerts2 -> Alert.Span a <> loc_of m.
Proof.
  intros Hclean1 Hclean2.
  pose proof (conditional_returns txt1 chk e r0 r1 masked1 Hclean1) as Hrun1.
  cbn zeta in Hrun1.
  pose proof (conditional_returns txt2 chk
                (with_Sequences e (Sequences (file e) ++ first_groups r0 masked1))
                r0 r1 masked2 Hclean2) as Hrun2.
  cbn zeta in Hrun2. cbn [with_Sequences file Sequences] in Hrun2.
  eexists _, _, _, _. split; [exact Hrun1|]. split; [exact Hrun2|].
  cbn [file Sequences]. split; [rewrite app_assoc; done|].
  intros m Hm Hdefined a Ha Hspan.
  apply in_map_iff in Ha as (m' & <- & Hm').
  apply filter_In in Hm' as [_ Hflag].
  cbn [alert_at Alert.Span loc_of] in Hspan. injection Hspan as Hlo Hhi.
  unfold is_flagged in Hflag. apply andb_true_iff in Hflag as [Hflag _].
  apply negb_true_iff in Hflag.
  assert (Hin : StringInSlice (match_text masked2 m')
                  ((Sequences (file e) ++ first_groups r0 masked1)
                   ++ first_groups r0 masked2) = true).
  { apply StringInSlice_In. unfold match_text. rewrite Hlo, Hhi.
    apply in_or_app. left. apply in_or_app. right. exact Hdefined. }
  congruence.
Qed.

End MoreMatchers.

(** * Further properties of the builders *)

Section MoreBuilders.
Context `{!Externals}.

(** X7.  An occurrence rule whose maximum is below 1 is not registered, and when
    its pattern compiles nothing is reported either. *)
Theorem addOccurrenceCheck_needs_positive_max
    (chkName : string) (chkDef : definition) (st : LoadState)
    (token : string) :
  Tokens chkDef !! 0%nat = Some token ->
  (Max chkDef < 1)%Z ->
  exists st',
    addOccurrenceCheck chkName chkDef st = Some st'
    /\ AllChecks st' = AllChecks st
    /\ (forall re, Compile token = inl re -> printed st' = printed st).
Proof.
  intros Htoken Hmax. unfold addOccurrenceCheck. rewrite Htoken.
  cbn [mbind option_bind].
  destruct (Z.leb_spec 1 (Max chkDef)); [lia|]. rewrite andb_false_r.
  destruct (Compile token) as [re|err]; cbn [compile_error].
  - rewrite report_nil. cbn [fst snd]. eexists. split; [done|]. done.
  - rewrite report_error. cbn [fst snd]. eexists. split; [done|].
    split; [done|]. intros re [=].
Qed.

(** X8.  [addScriptCheck] always returns and never reports: it registers the
    rule when the script exists under the style's [scripts] directory and
    leaves the registry alone when it does not. *)
Theorem addScriptCheck_registers_existing_script
    (chkName : string) (chkDef : definition) (st : LoadState) :
  exists style rest st',
    Split chkName "." = style :: rest
    /\ addScriptCheck chkName chkDef st = Some st'
    /\ printed st' = printed st
    /\ let exe := filepath_Join [StylesPath; style; "scripts"; Exe chkDef] in
       if FileExists exe
       then rule <$> (AllChecks st' !! Name chkDef)
            = Some (fun text e => script text chkDef exe e)
       else AllChecks st' = AllChecks st.
Proof.
  unfold addScriptCheck, Split.
  destruct (split_scan_nonempty "." chkName 0 "") as (style & rest & ->).
  exists style, rest. cbn [lookup list_lookup mbind option_bind].
  destruct (FileExists _) eqn:Hexists.
  - eexists. split; [done|]. split; [done|]. split; [done|].
    cbn zeta. rewrite ?Hexists. cbn [updateAllChecks AllChecks].
    rewrite lookup_insert_eq. done.
  - eexists. split; [done|]. split; [done|]. split; [done|].
    cbn zeta. rewrite ?Hexists. done.
Qed.

Lemma split_scan_plain s : forall cur,
  Contains s "." = false -> split_scan "." s 0 cur = [cur +:+ s].
Proof.
  induction s as [|c s IH]; intros cur Hno.
  - simpl. rewrite string_app_empty_r. done.
  - cbn [Contains String.prefix] in Hno.
    destruct (ascii_dec "." c) as [<-|Hc].
    + destruct s; discriminate Hno.
    + cbn [orb] in Hno. rewrite split_scan_other by congruence.
      rewrite IH by done. rewrite string_app_assoc. done.
Qed.

Lemma split_scan_dotted s : forall cur,
  Contains s "." = true ->
  exists x y l, split_scan "." s 0 cur = x :: y :: l.
Proof.
  induction s as [|c s IH]; intros cur Hdot; [discriminate Hdot|].
  destruct (ascii_dec "." c) as [<-|Hc].
  - rewrite split_scan_dot.
    destruct (split_scan_nonempty "." s 0 "") as (y & l & ->). eauto.
  - rewrite split_scan_other by congruence. apply IH.
    cbn [Contains String.prefix] in Hdot.
    destruct (ascii_dec "." c); [done|]. exact Hdot.
Qed.

(** X9.  [addConsistencyCheck] panics exactly when the name it is given holds no
    dot, whatever the definition. *)
Theorem addConsistencyCheck_needs_qualified_name
    (chkName : string) (chkDef : definition) (st : LoadState) :
  addConsistencyCheck chkName chkDef st = None
  <-> Contains chkName "." = false.
Proof.
  unfold addConsistencyCheck, Split.
  destruct (Contains chkName ".") eqn:Hdot.
  - destruct (split_scan_dotted chkName "" Hdot) as (x & y & l & ->).
    cbn [lookup list_lookup mbind option_bind]. done.
  - rewrite split_scan_plain by done. done.
Qed.

Lemma group_names_as_map chkKey n : forall s : nat,
  concat (map (fun i : nat => subs_of chkKey (2 * Z.of_nat i + 2)%Z) (seq s n))
  = (fun c : Z => chkKey +:+ pretty c)
      <$> seqZ (2 * Z.of_nat s + 2)%Z (2 * Z.of_nat n)%Z.
Proof.
  induction n as [|n IH]; intros s; [done|].
  cbn [seq map concat]. rewrite IH, subs_of_names.
  rewrite (seqZ_cons (2 * Z.of_nat s + 2)) by lia.
  rewrite (seqZ_cons (Z.succ (2 * Z.of_nat s + 2))) by lia.
  cbn [fmap list_fmap app].
  replace (2 * Z.of_nat s + 2 + 1)%Z with (Z.succ (2 * Z.of_nat s + 2)) by lia.
  replace (2 * Z.of_nat (S s) + 2)%Z
    with (Z.succ (Z.succ (2 * Z.of_nat s + 2))) by lia.
  replace (Z.pred (Z.pred (2 * Z.of_nat (S n))))%Z
    with (2 * Z.of_nat n)%Z by lia.
  done.
Qed.

(** X10.  The group names [addConsistencyCheck] generates for the pairs of one
    definition (counter 2 for the first pair, 4 for the second, ...) are
    pairwise distinct. *)
Theorem consistency_group_names_distinct (chkKey : string) (n : nat) :
  NoDup (concat (map (fun i : nat => subs_of chkKey (2 * Z.of_nat i + 2)%Z)
                   (seq 0 n))).
Proof.
  rewrite group_names_as_map. apply NoDup_fmap_2; [|apply NoDup_seqZ].
  intros c1 c2 Heq. apply String.app_inj in Heq.
  apply pretty_Z_inj in Heq. done.
Qed.

Lemma consistency_pairs_keeps_name chkName chkKey regex kvs :
  forall cur count st,
  is_Some (AllChecks st !! Name cur) ->
  is_Some (AllChecks (consistency_pairs chkName chkKey regex kvs cur count st)
           !! Name cur).
Proof.
  induction kvs as [|[v1 v2] kvs IH]; intros cur count st Hin; [done|].
  cbn [consistency_pairs].
  destruct (Compile _) as [re|err]; cbn [compile_error].
  - rewrite report_nil. cbn [fst snd].
    apply (IH (set_Type cur chkName)).
    cbn [updateAllChecks AllChecks]. rewrite lookup_insert_eq. eauto.
  - rewrite report_error. cbn [fst snd]. apply IH. done.
Qed.

Lemma consistency_pairs_reports chkName chkKey regex kvs :
  forall cur count st,
  let results := pair_compiles chkKey regex kvs count in
  let st' := consistency_pairs chkName chkKey regex kvs cur count st in
  printed st' = printed st ++ omap (error_line chkName) results
  /\ (Forall (fun r => is_Some (error_line chkName r)) results ->
      AllChecks st' = AllChecks st)
  /\ (Exists (fun r => error_line chkName r = None) results ->
      is_Some (AllChecks st' !! Name cur)).
Proof.
  induction kvs as [|[v1 v2] kvs IH]; intros cur count st.
  - cbn. rewrite app_nil_r. split; [done|]. split; [done|].
    intros Hex. inversion Hex.
  - cbn [pair_compiles consistency_pairs]. cbn zeta.
    destruct (Compile _) as [re|err] eqn:Hre; cbn [compile_error].
    + rewrite report_nil. cbn [fst snd omap list_omap error_line].
      match goal with |- context [consistency_pairs _ _ _ _ ?c ?n ?s] =>
        destruct (IH c n s) as (Hp & _ & _) end.
      cbn zeta in Hp. split; [exact Hp|].
      split.
      * intros Hall. inversion Hall as [|? ? [x Hx]]; subst. discriminate Hx.
      * intros _. apply (consistency_pairs_keeps_name _ _ _ _ (set_Type cur chkName)).
        cbn [updateAllChecks AllChecks]. rewrite lookup_insert_eq. eauto.
    + rewrite report_error. cbn [fst snd omap list_omap error_line].
      match goal with |- context [consistency_pairs _ _ _ _ ?c ?n ?s] =>
        destruct (IH c n s) as (Hp & Hnone & Hsome) end.
      cbn zeta in Hp, Hnone, Hsome. cbn [printed AllChecks] in *.
      split; [rewrite Hp, <- app_assoc; done|].
      split.
      * intros Hall. inversion Hall; subst. auto.
      * intros Hex. inversion Hex as [? ? Hx|]; subst; [discriminate Hx|auto].
Qed.

(** X11.  [addConsistencyCheck] under a qualified name reports one line for
    every pair whose pattern does not compile, in the order of the pairs;
    the registry is untouched when no pair compiles, and the rule is
    registered as soon as one pair does. *)
Theorem addConsistencyCheck_reports_each_failing_pair
    (chkName : string) (chkDef : definition) (st : LoadState)
    (chkKey : string) :
  Split chkName "." !! 1%nat = Some chkKey ->
  let results :=
    pair_compiles chkKey (template_of chkDef) (Map chkDef) 0 in
  exists st',
    addConsistencyCheck chkName chkDef st = Some st'
    /\ printed st' = printed st ++ omap (error_line chkName) results
    /\ (Forall (fun r => is_Some (error_line chkName r)) results ->
        AllChecks st' = AllChecks st)
    /\ (Exists (fun r => error_line chkName r = None) results ->
        is_Some (AllChecks st' !! Name chkDef)).
Proof.
  intros Hkey results. unfold addConsistencyCheck. rewrite Hkey.
  cbn [mbind option_bind]. eexists. split; [done|].
  apply consistency_pairs_reports.
Qed.

(** ** The patterns the builders assemble *)

Lemma Sprintf_template d x :
  Sprintf (template_of d) [x] = wrap_in_template d x.
Proof.
  unfold template_of, wrap_in_template.
  destruct (Ignorecase d), (Nonword d); reflexivity.
Qed.

Lemma Sprintf_plain_prefix a : forall format args,
  no_percent a = true ->
  Sprintf (a +:+ format) args = a +:+ Sprintf format args.
Proof.
  induction a as [|c a IH]; intros format args Ha; [done|].
  cbn [no_percent] in Ha. apply andb_true_iff in Ha as [Hc Ha].
  rewrite !app_String. cbn [Sprintf].
  destruct c as [[] [] [] [] [] [] [] []]; try discriminate Hc;
    rewrite ?IH by done; try reflexivity;
    destruct (a +:+ format); rewrite <- ?IH by done; reflexivity.
Qed.

(** X12.  When no raw fragment holds a [%], the pattern of an existence rule is
    the flag, the raw fragments as they are, and the alternation of the
    tokens inside the template; the word boundaries are written only for a
    rule that is not [nonword] and has at least one token. *)
Theorem existence_pattern_shape (chkDef : definition) :
  no_percent (Join (Raw chkDef) "") = true ->
  let bounded := negb (Nonword chkDef) && (0 <? length (Tokens chkDef))%nat in
  existence_pattern chkDef
  = (if Ignorecase chkDef then "(?i)" else "")
    +:+ Join (Raw chkDef) ""
    +:+ (if bounded then "\b(?:" else "(?:")
    +:+ Join (Tokens chkDef) "|"
    +:+ (if bounded then ")\b" else ")").
Proof.
  intros Hraw bounded. unfold existence_pattern. cbn zeta. fold bounded.
  assert (Hflag : no_percent (if Ignorecase chkDef then ignoreCase else "")
                  = true) by (destruct (Ignorecase chkDef); reflexivity).
  destruct bounded; rewrite !string_app_assoc;
    rewrite (Sprintf_plain_prefix _ _ _ Hflag);
    rewrite (Sprintf_plain_prefix _ _ _ Hraw);
    destruct (Ignorecase chkDef); reflexivity.
Qed.

Lemma rev_app_append s : forall t u,
  String.rev_app (s +:+ u) t = String.rev_app u (String.rev_app s t).
Proof. induction s as [|a s IH]; intros t u; [done|]. apply IH. Qed.

Lemma rev_app_twice s : forall t u,
  String.rev_app (String.rev_app s t) u = String.rev_app t (s +:+ u).
Proof.
  induction s as [|a s IH]; intros t u; [done|].
  cbn [String.rev_app]. rewrite IH. done.
Qed.

Lemma TrimRight_bar s c :
  c <> "|"%char ->
  TrimRight (s +:+ String c "|") "|" = s +:+ String c "".
Proof.
  intros Hc. unfold TrimRight, String.rev. rewrite rev_app_append.
  cbn [String.rev_app trim_left_cutset in_cutset].
  replace (Ascii.eqb "|" "|") with true by reflexivity. cbn [orb].
  replace (Ascii.eqb c "|") with false
    by (symmetry; apply Ascii.eqb_neq; done).
  cbn [orb]. apply rev_app_twice.
Qed.

Lemma wrap_all_Join kv kvs :
  exists s,
    Join (map (fun kv : string * string => "(" +:+ fst kv +:+ ")") (kv :: kvs))
      "|" = s +:+ ")"
    /\ wrap_all (kv :: kvs) = s +:+ ")|".
Proof.
  revert kv. induction kvs as [|kv' kvs IH]; intros kv.
  - exists ("(" +:+ fst kv). cbn [map Join wrap_all fold_right].
    rewrite !string_app_assoc. done.
  - destruct (IH kv') as (s & Hjoin & Hwrap).
    exists ("(" +:+ fst kv +:+ ")|" +:+ s).
    change (wrap_all (kv :: kv' :: kvs))
      with ("(" +:+ fst kv +:+ ")|" +:+ wrap_all (kv' :: kvs)).
    rewrite Hwrap. cbn [map] in *. cbn [Join]. cbn [Join] in Hjoin.
    rewrite Hjoin. rewrite !string_app_assoc. done.
Qed.

(** X13.  The pattern of a substitution rule is the alternation of the kept keys
    of the map, each in a capturing group of its own and in the order the
    map is visited, inside the flag and the template; nothing is left of
    the bar written after the last key. *)
Theorem substitution_pattern_shape (chkDef : definition) :
  substitution_pattern chkDef
  = wrap_in_template chkDef
      (Join (map (fun kv : string * string => "(" +:+ fst kv +:+ ")")
               (kept_pairs (Map chkDef))) "|").
Proof.
  unfold substitution_pattern. cbn zeta.
  rewrite substitution_pairs_kept, Sprintf_template. cbn [fst].
  f_equal. destruct (kept_pairs (Map chkDef)) as [|kv kvs]; [done|].
  destruct (wrap_all_Join kv kvs) as (s & -> & ->).
  change (s +:+ ")|") with (s +:+ String ")" "|").
  apply TrimRight_bar. done.
Qed.

End MoreBuilders.

(** * Properties of loading *)

Section MoreLoading.
Context `{!Externals}.

Lemma extends_output_same st st' :
  printed st' = printed st -> extends_output st st'.
Proof. intros Hsame. exists []. rewrite app_nil_r. done. Qed.

Lemma extends_output_refl st : extends_output st st.
Proof. apply extends_output_same. done. Qed.

Lemma extends_output_trans st1 st2 st3 :
  extends_output st1 st2 -> extends_output st2 st3 -> extends_output st1 st3.
Proof.
  intros [l1 H1] [l2 H2]. exists (l1 ++ l2). rewrite H2, H1, app_assoc. done.
Qed.

Lemma report_extends err context st :
  extends_output st (snd (report err context st))
  /\ AllChecks (snd (report err context st)) = AllChecks st.
Proof.
  destruct err.
  - rewrite report_error. cbn [snd]. split; [eexists|]; done.
  - rewrite report_nil. cbn [snd]. split; [|done].
    apply extends_output_same. done.
Qed.

Lemma stores_nothing d st st' :
  extends_output st st' -> AllChecks st' = AllChecks st ->
  stores_at_most d st st'.
Proof. intros Hout Hsame. split; [done|]. left. done. Qed.

Lemma stores_update d cur fn st st' :
  Name cur = Name d -> Scope cur = Scope d -> Level cur = Level d ->
  compiled_rule fn -> stores_at_most d st st' ->
  stores_at_most d st (updateAllChecks cur fn st').
Proof.
  intros Hname Hscope Hlevel Hfn [Hout Hreg]. split; [exact Hout|]. right.
  exists {| rule := fn; extends := Type_ cur;
            level := default 0%Z (LevelToInt !! Level cur);
            scope := {| Value := Scope cur |} |}.
  split.
  - split; [exact Hscope|]. split; [|exact Hfn]. cbn [level]. rewrite Hlevel.
    done.
  - cbn [updateAllChecks AllChecks]. rewrite Hname.
    destruct Hreg as [->|(c & _ & ->)]; [done|]. apply insert_insert_eq.
Qed.

Lemma stores_refl d st : stores_at_most d st st.
Proof. apply stores_nothing; [apply extends_output_refl|done]. Qed.

Lemma stores_copy d st :
  stores_at_most d st {| AllChecks := AllChecks st; printed := printed st |}.
Proof. apply stores_nothing; [apply extends_output_same|]; done. Qed.

Lemma stores_report d err context st st' :
  stores_at_most d st st' ->
  stores_at_most d st (snd (report err context st')).
Proof.
  intros [Hout Hreg]. destruct (report_extends err context st') as [Hout' Hsame].
  split; [eapply extends_output_trans; done|]. rewrite Hsame. exact Hreg.
Qed.

Lemma consistency_pairs_stores d chkName chkKey regex kvs :
  forall cur count st',
  Name cur = Name d -> Scope cur = Scope d -> Level cur = Level d ->
  forall st, stores_at_most d st st' ->
  stores_at_most d st
    (consistency_pairs chkName chkKey regex kvs cur count st').
Proof.
  induction kvs as [|[v1 v2] kvs IH]; intros cur count st' Hn Hs Hl st Hst;
    [done|].
  cbn [consistency_pairs].
  destruct (Compile _) as [re|err]; cbn [compile_error].
  - rewrite report_nil. cbn [fst snd]. apply IH; [done..|].
    apply stores_update; [done..|constructor|done].
  - rewrite report_error. cbn [fst snd]. apply IH; [done..|].
    destruct Hst as [Hout Hreg]. split; [|exact Hreg].
    eapply extends_output_trans; [exact Hout|]. eexists. done.
Qed.

#[local] Ltac stores_base :=
  first [ apply stores_refl
        | apply stores_copy
        | apply stores_nothing; [eexists; reflexivity | reflexivity] ].

Lemma builder_stores key f chkName d st st' :
  lookup_builder key typeToFunc = Some f ->
  f chkName d st = Some st' -> stores_at_most d st st'.
Proof.
  cbn [lookup_builder typeToFunc]. intros Hf.
  repeat match type of Hf with
         | (if ?b then _ else _) = _ => destruct b
         end; try done; injection Hf as <-.
  - unfold addConditionalCheck.
    destruct (Compile (Then d)); cbn [compile_error fst snd];
      [rewrite report_nil|]; cbn [fst snd];
      [|intros [= <-]; stores_base].
    destruct (Compile (If d)); cbn [compile_error];
      [rewrite report_nil|]; cbn [fst snd]; intros [= <-];
      [|stores_base].
    apply stores_update; [done..|constructor|stores_base].
  - unfold addConsistencyCheck. destruct (Split chkName "." !! 1%nat); [|done].
    cbn [mbind option_bind]. intros [= <-].
    apply consistency_pairs_stores; [done..|stores_base].
  - unfold addExistenceCheck.
    destruct (Compile _); cbn [compile_error];
      [rewrite report_nil|]; cbn [fst snd]; intros [= <-];
      [|stores_base].
    apply stores_update; [done..|constructor|stores_base].
  - unfold addOccurrenceCheck. destruct (Tokens d !! 0%nat); [|done].
    cbn [mbind option_bind].
    destruct (Compile _); cbn [compile_error];
      [rewrite report_nil; cbn [fst snd andb]; destruct (1 <=? Max d)%Z|];
      cbn [fst snd andb]; intros [= <-];
      [|stores_base|stores_base].
    apply stores_update; [done..|constructor|stores_base].
  - unfold addRepetitionCheck.
    destruct (Compile _); cbn [compile_error];
      [rewrite report_nil|]; cbn [fst snd]; intros [= <-];
      [|stores_base].
    apply stores_update; [done..|constructor|stores_base].
  - unfold addScriptCheck. destruct (Split chkName "." !! 0%nat); [|done].
    cbn [mbind option_bind]. destruct (FileExists _); intros [= <-];
      [|stores_base].
    apply stores_update; [done..|constructor|stores_base].
  - unfold addSubstitutionCheck.
    destruct (Compile _); cbn [compile_error];
      [rewrite report_nil|]; cbn [fst snd]; intros [= <-];
      [|stores_base].
    apply stores_update; [done..|constructor|stores_base].
Qed.

Lemma addCheck_stores file chkName st st' :
  addCheck file chkName st = Some st' ->
  stores_at_most
    (normalised (fst (yaml_Unmarshal file (new_definition chkName)))) st st'.
Proof.
  unfold addCheck.
  destruct (snd (yaml_Unmarshal file (new_definition chkName))) as [err|].
  - rewrite report_error. cbn [fst snd negb]. intros [= <-].
    apply stores_nothing; [eexists|]; done.
  - rewrite report_nil. cbn [fst snd negb].
    fold (normalised (fst (yaml_Unmarshal file (new_definition chkName)))).
    destruct (lookup_builder _ typeToFunc) as [f|] eqn:Hf;
      [|intros [= <-]; stores_base].
    intros Hrun. exact (builder_stores _ _ _ _ _ _ Hf Hrun).
Qed.

(** X14.  Whenever [addCheck] returns, it has only added lines to the output,
    and the registry is either untouched or has taken exactly one check
    under the name of the decoded definition: a check whose scope and level
    are those of the definition after the defaults are filled in, and whose
    rule is one of the seven closures. *)
Theorem addCheck_stores_at_most_one_check
    (file chkName : string) (st st' : LoadState) :
  addCheck file chkName st = Some st' ->
  let d := normalised (fst (yaml_Unmarshal file (new_definition chkName))) in
  (exists lines, printed st' = printed st ++ lines)
  /\ (AllChecks st' = AllChecks st
      \/ exists c,
           AllChecks st' = <[Name d := c]> (AllChecks st)
           /\ Value (scope c) = Scope d
           /\ level c = default 0%Z (LevelToInt !! Level d)
           /\ compiled_rule (rule c)).
Proof.
  intros Hrun d. destruct (addCheck_stores _ _ _ _ Hrun) as [Hout Hreg].
  split; [exact Hout|].
  destruct Hreg as [Hsame|(c & (Hs & Hl & Hr) & Hreg)]; [left; done|].
  right. exists c. done.
Qed.

Lemma registered_well_formed d c :
  registered_for (normalised d) c -> well_formed c.
Proof.
  intros (Hscope & Hlevel & Hrule). split; [|split; [|exact Hrule]].
  - rewrite Hscope. unfold normalised.
    match goal with |- context [String.eqb (Scope ?x) ""] =>
      destruct (String.eqb_spec (Scope x) "") end; done.
  - exists (Level (normalised d)). split; [|exact Hlevel].
    unfold normalised.
    destruct (StringInSlice (Level d) AlertLevels) eqn:Hin; cbn [negb].
    + apply StringInSlice_In in Hin.
      match goal with |- context [String.eqb (Scope ?x) ""] =>
        destruct (String.eqb (Scope x) "") end; right; exact Hin.
    + match goal with |- context [String.eqb (Scope ?x) ""] =>
        destruct (String.eqb (Scope x) "") end; left; done.
Qed.

Lemma grows_refl st : grows st st.
Proof. split; [done|]. split; [apply extends_output_refl|done]. Qed.

Lemma grows_trans st1 st2 st3 : grows st1 st2 -> grows st2 st3 -> grows st1 st3.
Proof.
  intros (Hk1 & Ho1 & Hw1) (Hk2 & Ho2 & Hw2). split; [auto|].
  split; [eapply extends_output_trans; done|auto].
Qed.

Lemma grows_report err context st : grows st (snd (report err context st)).
Proof.
  destruct (report_extends err context st) as [Hout Hsame].
  split; [rewrite Hsame; done|]. split; [exact Hout|].
  unfold all_well_formed. rewrite Hsame. done.
Qed.

Lemma addCheck_grows file chkName st st' :
  addCheck file chkName st = Some st' -> grows st st'.
Proof.
  intros Hrun. destruct (addCheck_stores _ _ _ _ Hrun) as [Hout Hreg].
  destruct Hreg as [Hsame|(c & Hc & Hreg)].
  - split; [rewrite Hsame; done|]. split; [exact Hout|].
    unfold all_well_formed. rewrite Hsame. done.
  - split; [|split; [exact Hout|]].
    + intros k Hk. rewrite Hreg, lookup_insert. case_decide; eauto.
    + intros Hwf k c'. rewrite Hreg, lookup_insert.
      case_decide; [intros [= <-]; eapply registered_well_formed; done|].
      apply Hwf.
Qed.

Lemma for_each_grows {A St : Type} (R : St -> St -> Prop)
    (body : A -> St -> option St) l :
  (forall s, R s s) ->
  (forall s1 s2 s3, R s1 s2 -> R s2 s3 -> R s1 s3) ->
  (forall a s s', body a s = Some s' -> R s s') ->
  forall s s', for_each body l s = Some s' -> R s s'.
Proof.
  intros Hrefl Htrans Hbody. induction l as [|a l IH]; intros s s'.
  - rewrite for_each_nil. intros [= <-]. apply Hrefl.
  - rewrite for_each_cons. destruct (body a s) as [s1|] eqn:Ha; [|done].
    cbn [mbind option_bind]. intros Hrest.
    eapply Htrans; [eapply Hbody; exact Ha|apply IH; exact Hrest].
Qed.


Lemma loadChecks_grows names st st' :
  loadChecks names st = Some st' -> grows st st'.
Proof.
  unfold loadChecks.
  apply (for_each_grows grows); [apply grows_refl|apply grows_trans|].
  intros chk s s'. destruct (snd (Asset _)); [intros [= <-]; apply grows_refl|].
  apply addCheck_grows.
Qed.



Section Styles.
Context `{!FileSystem}.

Lemma loadCheck_grows fName fp st st' :
  loadCheck fName fp st = Some st' -> grows st st'.
Proof.
  unfold loadCheck. destruct (HasSuffix fName ".yml");
    [|intros [= <-]; apply grows_refl].
  destruct (snd (ReadFile fp)) as [err|].
  - rewrite report_error. cbn [fst snd negb]. intros [= <-].
    split; [done|]. split; [eexists|]; done.
  - rewrite report_nil. cbn [fst snd negb].
    destruct (Split fName "." !! 0%nat) as [part|]; [|done].
    cbn [mbind option_bind].
    match goal with |- context [@lookup _ _ _ _ ?k (AllChecks ?s)] =>
      destruct (@lookup _ _ _ _ k (AllChecks s)) eqn:Hdup end.
    + intros [= <-]. split; [done|]. split; [eexists|]; done.
    + intros Hrun. exact (addCheck_grows _ _ _ _ Hrun).
Qed.

Lemma walk_entry_grows entry st st' :
  walk_entry entry st = Some st' -> grows st st'.
Proof.
  unfold walk_entry. destruct (entry_info entry) as [[name []]|err];
    try (intros [= <-]; apply grows_refl).
  apply loadCheck_grows.
Qed.

Lemma loadExternalStyle_grows path st st' :
  loadExternalStyle path st = Some st' -> grows st st'.
Proof.
  unfold loadExternalStyle.
  destruct (for_each walk_entry _ st) as [st1|] eqn:Hwalk; [|done].
  cbn [mbind option_bind]. intros [= <-].
  eapply grows_trans; [|apply grows_report].
  revert Hwalk.
  apply (for_each_grows grows); [apply grows_refl|apply grows_trans|].
  apply walk_entry_grows.
Qed.

Lemma load_style_grows baseDir style acc acc' :
  load_style baseDir style acc = Some acc' -> grows (fst acc) (fst acc').
Proof.
  unfold load_style. destruct (loadExternalStyle _ _) as [st1|] eqn:Hload;
    [|done].
  cbn [mbind option_bind]. intros [= <-]. cbn [fst].
  eapply loadExternalStyle_grows. exact Hload.
Qed.

Lemma load_configured_check_grows baseDir loaded chk st st' :
  load_configured_check baseDir loaded chk st = Some st' -> grows st st'.
Proof.
  unfold load_configured_check.
  destruct (Contains chk "."); cbn [negb]; [|intros [= <-]; apply grows_refl].
  destruct (Split chk "." !! 0%nat) as [style|]; [|done].
  cbn [mbind option_bind].
  destruct (StringInSlice style loaded); cbn [negb];
    [intros [= <-]; apply grows_refl|].
  destruct (Split chk "." !! 1%nat) as [name|]; [|done].
  cbn [mbind option_bind]. apply loadCheck_grows.
Qed.

Lemma init_grows st st' : init st = Some st' -> grows st st'.
Proof.
  unfold init. destruct (loadDefaultChecks st) as [st1|] eqn:Hdefault; [|done].
  cbn [mbind option_bind].
  assert (H1 : grows st st1) by (eapply loadChecks_grows; exact Hdefault).
  destruct (String.eqb StylesPath ""); [intros [= <-]; exact H1|].
  set (R := fun a b : LoadState * list string => grows (fst a) (fst b)).
  assert (Hrefl : forall a, R a a) by (intros a; apply grows_refl).
  assert (Htrans : forall a b c, R a b -> R b c -> R a c)
    by (intros a b c; apply grows_trans).
  destruct (for_each _ GBaseStyles _) as [acc1|] eqn:Hglobal; [|done].
  cbn [mbind option_bind].
  assert (H2 : R (st1, [] ++ ["vale"]) acc1).
  { revert Hglobal. apply (for_each_grows R); [done..|].
    intros style a a'. destruct (String.eqb style "vale");
      [intros [= <-]; apply Hrefl|apply load_style_grows]. }
  destruct (for_each _ SBaseStyles acc1) as [acc2|] eqn:Hsyntax; [|done].
  cbn [mbind option_bind].
  assert (H3 : R acc1 acc2).
  { revert Hsyntax. apply (for_each_grows R); [done..|].
    intros styles a a'. apply (for_each_grows R); [done..|].
    intros style b b'. destruct (StringInSlice style (snd b)); cbn [negb];
      [intros [= <-]; apply Hrefl|apply load_style_grows]. }
  intros Hchecks. eapply grows_trans; [exact H1|].
  eapply grows_trans; [exact H2|]. eapply grows_trans; [exact H3|].
  revert Hchecks.
  apply (for_each_grows grows); [apply grows_refl|apply grows_trans|].
  intros chk s s'. apply load_configured_check_grows.
Qed.

(** X15.  Whatever the styles directory and the configuration hold, [init]
    removes no name from the registry and no line from the output: it only
    adds. *)
Theorem init_keeps_registered_names (st st' : LoadState) :
  init st = Some st' ->
  (forall k, is_Some (AllChecks st !! k) -> is_Some (AllChecks st' !! k))
  /\ (exists lines, printed st' = printed st ++ lines).
Proof. intros Hrun. destruct (init_grows _ _ Hrun) as (Hk & Ho & _). done. Qed.

(** X16.  Every check [init] registers has a non-empty scope, a level looked up
    for "suggestion" or one of the alert levels, and one of the seven
    closures as its rule: a registry of such checks stays one, and so does
    the empty registry. *)
Theorem init_registers_well_formed_checks (st st' : LoadState) :
  init st = Some st' ->
  (forall k c, AllChecks st !! k = Some c -> well_formed c) ->
  forall k c, AllChecks st' !! k = Some c -> well_formed c.
Proof. intros Hrun. destruct (init_grows _ _ Hrun) as (_ & _ & Hwf). done. Qed.







End Styles.
End MoreLoading.

(** * The further properties on concrete inputs *)

(** With a pattern to ignore that does not compile, an existence check
    panics on a reStructuredText document whatever its pattern, and a
    substitution check panics as soon as its pattern matches. *)
Lemma matchers_panic_in_rst :
  let r := alt_regexp true true ["utilize"; "irregardless"] [""; ""] in
  (forall r', @existence site "utilize" demo_existence rst_document r' = None)
  /\ @substitution site "utilize" (demo_substitution []) rst_document r ["use"]
     = None
  /\ @substitution site "use" (demo_substitution []) rst_document r ["use"]
     = Some ([], rst_document).
Proof.
  intros r.
  assert (Hmask : @Compile site (@mask_pattern site (NormedExt (file rst_document)))
                  = inr "error parsing regexp") by (vm_compute; reflexivity).
  split; [|split].
  - exact (proj1 (@matchers_panic_without_mask site "utilize" demo_existence
                    rst_document _ Hmask)).
  - exact (proj2 (proj2 (proj2 (proj2
             (@matchers_panic_without_mask site "utilize"
                (demo_substitution []) rst_document _ Hmask)))) r ["use"]).
  - exact (proj2 (proj2 (proj2 (proj2
             (@matchers_panic_without_mask site "use"
                (demo_substitution []) rst_document _ Hmask)))) r ["use"]).
Defined.

(** An existence check beside a URL that holds the token: one alert, for
    the match outside the URL. *)
Lemma existence_foo_beside_url :
  let r := alt_regexp true false ["foo"] [] in
  exists alerts,
    existence "foo http://foo.io" demo_existence new_document r
    = Some (alerts, new_document)
    /\ Forall2
         (fun a m =>
            Alert.Check a = Name demo_existence
            /\ Alert.Severity a = Level demo_existence
            /\ Alert.Link a = Link demo_existence
            /\ Alert.Span a = loc_of m
            /\ Alert.Message a
               = FormatMessage (Message demo_existence)
                   [slice "foo http://foo.io" (fst (whole m)) (snd (whole m))])
         alerts [{| whole := (0, 3)%Z; groups := [] |}].
Proof.
  intros r.
  apply (existence_one_alert_per_match "foo http://foo.io" demo_existence
           new_document r "foo *************").
  vm_compute. reflexivity.
Defined.

(** An occurrence check with a negative limit panics on a text without a
    match. *)
Lemma occurrence_negative_limit :
  let r := alt_regexp true false ["foo"] [] in
  occurrence "bar" demo_occurrence new_document r (-1) = None
  <-> (-1 < 0)%Z /\ FindAll r "bar" = [].
Proof.
  intros r.
  apply (occurrence_panics_iff "bar" demo_occurrence new_document r (-1) "bar").
  vm_compute. reflexivity.
Defined.

(** A substitution check with one replacement for two groups panics when
    the second group matches. *)
Lemma substitution_missing_replacement :
  let r := alt_regexp true true ["utilize"; "irregardless"] [""; ""] in
  substitution "irregardless" (demo_substitution []) new_document r ["use"]
  = None.
Proof.
  intros r.
  apply (substitution_panics_iff "irregardless" (demo_substitution [])
           new_document r ["use"] "irregardless");
    [vm_compute; reflexivity | vm_compute; reflexivity |].
  exists {| whole := (0, 12)%Z; groups := [None; Some (0, 12)%Z] |},
         (2%nat, (0, 12)%Z).
  split; [vm_compute; auto|]. split; [vm_compute; auto|]. vm_compute. lia.
Defined.

(** A consistency check on a document whose sequence holds one variant
    already fires on the other variant. *)
Lemma consistency_after_colour :
  let r := alt_regexp true true ["color"; "colour"] ["Spelling2"; "Spelling3"] in
  let e := with_Sequences new_document ["Spelling3"] in
  exists alerts ns,
    consistency "color" demo_consistency e r (subs_of "Spelling" 2)
    = Some (alerts, with_Sequences e (Sequences (file e) ++ ns))
    /\ length ns
       = length (concat (map participants (FindAll r "color")))
    /\ (length alerts <= 1)%nat
    /\ (alerts <> []
        <-> FindAll r "color" <> []
            /\ forall name, In name (subs_of "Spelling" 2) ->
                            In name (Sequences (file e) ++ ns)).
Proof.
  intros r e.
  apply (consistency_fires_iff "color" demo_consistency e r
           (subs_of "Spelling" 2) "color").
  - vm_compute. reflexivity.
  - intros m p Hm Hp. vm_compute in Hm. destruct Hm as [<-|[]].
    vm_compute in Hp. destruct Hp as [<-|[]]. vm_compute. lia.
  - intros m Hm. vm_compute in Hm. destruct Hm as [<-|[]].
    vm_compute. discriminate.
Defined.

(** An occurrence rule with a maximum of 0 is not registered. *)
Lemma addOccurrenceCheck_max_zero :
  let d := rule_file "demo.TooMany" "occurrence" ["\bfoo\b"] 0 [] "" "" "" in
  exists st',
    addOccurrenceCheck "demo.TooMany" d no_checks = Some st'
    /\ AllChecks st' = AllChecks no_checks
    /\ (forall re, Compile "\bfoo\b" = inl re -> printed st' = printed no_checks).
Proof.
  intros d.
  apply (addOccurrenceCheck_needs_positive_max "demo.TooMany" d no_checks
           "\bfoo\b"); [reflexivity|vm_compute; reflexivity].
Defined.

(** A consistency rule of two pairs, the second of which does not compile:
    one line is reported and the rule is registered. *)
Lemma addConsistencyCheck_one_bad_pair :
  let d := rule_file "house.Spelling" "consistency" [] 0
             [("color", "colour"); ("grey", "gr(y")] "" "" "" in
  exists st',
    @addConsistencyCheck site "house.Spelling" d no_checks = Some st'
    /\ printed st' = ["house.Spelling: error parsing regexp"]
    /\ is_Some (AllChecks st' !! "house.Spelling").
Proof.
  intros d.
  destruct (@addConsistencyCheck_reports_each_failing_pair site
              "house.Spelling" d no_checks "Spelling")
    as (st' & Hrun & Hprinted & _ & Hsome); [vm_compute; reflexivity|].
  exists st'. split; [exact Hrun|]. split; [exact Hprinted|].
  apply Hsome. apply Exists_cons_hd. reflexivity.
Defined.

(** The pattern of an existence rule with one token. *)
Lemma existence_pattern_foo :
  existence_pattern demo_existence = "\b(?:foo)\b".
Proof.
  apply (existence_pattern_shape demo_existence). reflexivity.
Defined.

(** A rule file of the directory is stored as one check. *)
Lemma addCheck_stores_banned :
  let d := @normalised site
             (fst (@yaml_Unmarshal site "extends: existence"
                     (new_definition "house.Banned"))) in
  (exists lines, printed site_banned = printed no_checks ++ lines)
  /\ (AllChecks site_banned = AllChecks no_checks
      \/ exists c,
           AllChecks site_banned = <[Name d := c]> (AllChecks no_checks)
           /\ Value (scope c) = Scope d
           /\ level c = default 0%Z (@LevelToInt site !! Level d)
           /\ @compiled_rule site (rule c)).
Proof.
  apply (@addCheck_stores_at_most_one_check site "extends: existence"
           "house.Banned" no_checks site_banned).
  reflexivity.
Defined.


(** [init] on the directory keeps the name that was registered before. *)
Lemma init_site_keeps_seed :
  (forall k, is_Some (AllChecks site_seeded !! k) ->
             is_Some (AllChecks (site_loaded site_seeded) !! k))
  /\ (exists lines,
        printed (site_loaded site_seeded) = printed site_seeded ++ lines).
Proof.
  apply (@init_keeps_registered_names site site_fs site_seeded
           (site_loaded site_seeded)).
  reflexivity.
Defined.

(** [init] on the directory, from the empty registry, registers
    well-formed checks only. *)
Lemma init_site_well_formed :
  map_Forall (fun (_ : string) c => @well_formed site c)
    (AllChecks (site_loaded no_checks)).
Proof.
  unfold map_Forall.
  apply (@init_registers_well_formed_checks site site_fs no_checks
           (site_loaded no_checks)).
  - reflexivity.
  - intros k c Hk. change (AllChecks no_checks) with (∅ : gmap string check) in Hk.
    rewrite lookup_empty in Hk. discriminate Hk.
Defined.


(** What the first text defines is not reported in the second. *)
Lemma conditional_defined_earlier :
  let r0 := alt_regexp false true ["foo"] [""] in
  let r1 := alt_regexp false true ["foo"; "bar"] [""; ""] in
  exists alerts1 e1 alerts2 e2,
    conditional "foo" demo_conditional new_document [r0; r1]
    = Some (alerts1, e1)
    /\ conditional "foo bar" demo_conditional e1 [r0; r1]
       = Some (alerts2, e2)
    /\ Sequences (file e2)
       = Sequences (file new_document) ++ first_groups r0 "foo"
         ++ first_groups r0 "foo bar"
    /\ forall m, In m (FindAll r1 "foo bar") ->
         In (match_text "foo bar" m) (first_groups r0 "foo") ->
         forall a, In a alerts2 -> Alert.Span a <> loc_of m.
Proof.
  intros r0 r1.
  apply (conditional_remembers_earlier_definitions "foo" "foo bar"
           demo_conditional new_document r0 r1 "foo" "foo bar");
    vm_compute; reflexivity.
Defined.
